(** * The stack dependency graph of [pulumi stack graph]

    A shallow embedding of [pkg/cmd/pulumi/stack/stack_graph.go]: the
    vertex and edge objects, the builder [makeDependencyGraph], the root
    query [Roots] and the body of the command, with the properties of
    the graph they produce; and of the body of [pulumi state delete]
    ([pkg/cmd/pulumi/state/state_delete.go]).

    Go objects that are reached through pointers live in an explicit
    store: a [*dependencyVertex] is the index of a cell of the vertex
    store (or nil), a [graph.Edge] held in an edge list is the index of
    a cell of the edge store.  Two list entries denote the same edge
    object exactly when they hold the same index.  A [range] over a Go
    map visits the entries in an order the runtime picks; that order is
    an explicit argument, restricted to permutations of the entries. *)

From stdpp Require Import gmap strings.

Open Scope string_scope.
Open Scope list_scope.
Open Scope stdpp_scope.

(** ** Resource records ([sdk/go/common/resource]) *)

Module resource.

Definition URN := string.
Definition PropertyKey := string.

(** The fields of [resource.State] the graph builder reads. *)
Record State := mkState {
  ID : URN;                                          (* State.URN *)
  Dependencies : list URN;
  PropertyDependencies : gmap PropertyKey (list URN);
  Parent : URN
}.

End resource.

Import resource.

(** [deploy.Snapshot]: the ordered resource records.  The builder only
    reads the records, so the [*resource.State] pointers of the slice
    are kept as the records they point to. *)
Record Snapshot := mkSnapshot { Resources : list State }.

Record graphCommandOptions := mkOptions {
  stackName : string;
  ignoreParentEdges : bool;
  ignoreDependencyEdges : bool;
  dependencyEdgeColor : string;
  parentEdgeColor : string;
  shortNodeName : bool;
  dotFragment : string
}.

(** ** Vertices, edges and the store *)

(** A [*dependencyVertex]: [None] is nil, [Some a] the cell [a]. *)
Definition vptr := option nat.

(** The two implementations of [graph.Edge]. *)
Inductive Edge :=
  | dependencyEdge (to from : vptr) (labels : list string) (color : string)
  | parentEdge (to from : vptr) (color : string).

(** The [graph] back-reference of a vertex is left out: every vertex is
    allocated with [graph: dg], the one graph under construction, so
    [vertex.graph.vertices] is [dg.vertices]. *)
Record dependencyVertex := mkVertex {
  vresource : State;
  incomingEdges : list nat;
  outgoingEdges : list nat;
  useShortName : bool
}.

Record dependencyGraph := mkGraph { vertices : gmap URN nat }.

Record heap := mkHeap {
  vertex_cells : list dependencyVertex;
  edge_cells : list Edge
}.

Definition empty_heap : heap := mkHeap [] [].

(** [strings.Join] *)
Fixpoint Join (elems : list string) (sep : string) : string :=
  match elems with
  | [] => EmptyString
  | [x] => x
  | x :: rest => x +:+ sep +:+ Join rest sep
  end.

Definition To (e : Edge) : vptr :=
  match e with dependencyEdge to _ _ _ => to | parentEdge to _ _ => to end.

Definition From (e : Edge) : vptr :=
  match e with dependencyEdge _ from _ _ => from | parentEdge _ from _ => from end.

Definition Label (e : Edge) : string :=
  match e with
  | dependencyEdge _ _ labels _ => Join labels ", "
  | parentEdge _ _ _ => EmptyString
  end.

Definition Color (e : Edge) : string :=
  match e with dependencyEdge _ _ _ color => color | parentEdge _ _ color => color end.

Definition is_dependencyEdge (e : Edge) : bool :=
  match e with dependencyEdge _ _ _ _ => true | parentEdge _ _ _ => false end.

Definition is_parentEdge (e : Edge) : bool := negb (is_dependencyEdge e).

(** [vertex.Ins()] and [vertex.Outs()] of the vertex in cell [a] (no
    edges for an index that is not a cell; the builder never produces
    one, see [in_store]). *)
Definition Ins (h : heap) (a : nat) : list nat :=
  from_option incomingEdges [] (vertex_cells h !! a).

Definition Outs (h : heap) (a : nat) : list nat :=
  from_option outgoingEdges [] (vertex_cells h !! a).

(** ** Store operations *)

(** [&dependencyVertex{...}] *)
Definition new_vertex (v : dependencyVertex) (h : heap) : nat * heap :=
  (length (vertex_cells h), mkHeap (vertex_cells h ++ [v]) (edge_cells h)).

(** [&dependencyEdge{...}], [&parentEdge{...}] *)
Definition new_edge (e : Edge) (h : heap) : nat * heap :=
  (length (edge_cells h), mkHeap (vertex_cells h) (edge_cells h ++ [e])).

Definition add_incoming (edge : nat) (v : dependencyVertex) : dependencyVertex :=
  mkVertex (vresource v) (incomingEdges v ++ [edge]) (outgoingEdges v) (useShortName v).

Definition add_outgoing (edge : nat) (v : dependencyVertex) : dependencyVertex :=
  mkVertex (vresource v) (incomingEdges v) (outgoingEdges v ++ [edge]) (useShortName v).

(** [vertex.incomingEdges = append(vertex.incomingEdges, edge)] *)
Definition push_incoming (vertex edge : nat) (h : heap) : heap :=
  mkHeap (alter (add_incoming edge) vertex (vertex_cells h)) (edge_cells h).

(** [vertex.outgoingEdges = append(vertex.outgoingEdges, edge)] *)
Definition push_outgoing (vertex edge : nat) (h : heap) : heap :=
  mkHeap (alter (add_outgoing edge) vertex (vertex_cells h)) (edge_cells h).

(** ** Iteration order of Go maps *)

(** The orders in which one run of the builder ranges over
    [dg.vertices] and over the [PropertyDependencies] of the vertex it
    is visiting.  Both are permutations of the entries. *)
Record schedule := mkSchedule {
  range_vertices : list (URN * nat) → list (URN * nat);
  range_properties : nat → list (PropertyKey * list URN) → list (PropertyKey * list URN);
  range_vertices_perm : ∀ l, range_vertices l ≡ₚ l;
  range_properties_perm : ∀ a l, range_properties a l ≡ₚ l
}.

(** The schedule that visits the entries in the order [map_to_list] lists them. *)
Definition listed_order : schedule :=
  mkSchedule (λ l, l) (λ _ l, l) (λ l, reflexivity l) (λ _ l, reflexivity l).

(** The schedule that visits them in the opposite order. *)
Definition reversed_order : schedule :=
  mkSchedule reverse (λ _, reverse) reverse_Permutation (λ _, reverse_Permutation).

(** ** makeDependencyGraph *)

(** [depBlame[dep]], nil when the key is absent. *)
Definition blame_of (depBlame : gmap URN (list string)) (dep : URN) : list string :=
  default [] (depBlame !! dep).

(** Lines 273-278: invert the property-to-dependencies entries. *)
Definition blame_property (depBlame : gmap URN (list string))
    (entry : PropertyKey * list URN) : gmap URN (list string) :=
  foldl (λ m dep, <[dep := blame_of m dep ++ [entry.1]]> m) depBlame entry.2.

Definition make_depBlame (entries : list (PropertyKey * list URN)) : gmap URN (list string) :=
  foldl blame_property ∅ entries.

Section builder.

Variable sched : schedule.
Variable opts : graphCommandOptions.

(** Lines 259-267: one vertex per record; a later record with the
    same URN replaces the map entry of an earlier one. *)
Definition allocate_vertex (st : dependencyGraph * heap) (r : State) : dependencyGraph * heap :=
  let '(vertex, h) :=
    new_vertex (mkVertex r [] [] (shortNodeName opts)) st.2 in
  (mkGraph (<[ID r := vertex]> (vertices st.1)), h).

Definition allocate_vertices (rs : list State) : dependencyGraph * heap :=
  foldl allocate_vertex (mkGraph ∅, empty_heap) rs.

Variable dg : dependencyGraph.

(** Lines 283-286, one dependency of the vertex being visited.  The
    store to [vertexWeDependOn.outgoingEdges] dereferences the result
    of the map lookup: a nil pointer panics ([None]). *)
Definition add_dependency (depBlame : gmap URN (list string)) (vertex : nat)
    (dep : URN) (h : heap) : option heap :=
  let vertexWeDependOn := vertices dg !! dep in
  let '(edge, h) :=
    new_edge (dependencyEdge (Some vertex) vertexWeDependOn (blame_of depBlame dep)
                             (dependencyEdgeColor opts)) h in
  let h := push_incoming vertex edge h in
  w ← vertexWeDependOn;
  Some (push_outgoing w edge h).

(** Lines 282-287 *)
Fixpoint add_dependencies (depBlame : gmap URN (list string)) (vertex : nat)
    (deps : list URN) (h : heap) : option heap :=
  match deps with
  | [] => Some h
  | dep :: rest =>
      h ← add_dependency depBlame vertex dep h;
      add_dependencies depBlame vertex rest h
  end.

(** Lines 293-302 *)
Definition add_parent (vertex : nat) (r : State) (h : heap) : heap :=
  if ignoreParentEdges opts then h
  else if decide (Parent r = EmptyString) then h
  else
    let parentVertex := vertices dg !! Parent r in
    let '(edge, h) :=
      new_edge (parentEdge parentVertex (Some vertex) (parentEdgeColor opts)) h in
    push_outgoing vertex edge h.

(** Lines 270-302: the body of the second loop for one vertex.  The
    first line reads [vertex.resource]; [vertex] comes out of
    [dg.vertices] and is never nil. *)
Definition visit (vertex : nat) (h : heap) : option heap :=
  v ← vertex_cells h !! vertex;
  let r := vresource v in
  h ← (if ignoreDependencyEdges opts then Some h
       else
         let depBlame :=
           make_depBlame (range_properties sched vertex
                            (map_to_list (PropertyDependencies r))) in
         add_dependencies depBlame vertex (Dependencies r) h);
  Some (add_parent vertex r h).

(** Lines 269-303 *)
Fixpoint visit_all (order : list (URN * nat)) (h : heap) : option heap :=
  match order with
  | [] => Some h
  | (_, vertex) :: rest => h ← visit vertex h; visit_all rest h
  end.

End builder.

(** The builder; [None] is a panic. *)
Definition makeDependencyGraph (sched : schedule) (snapshot : Snapshot)
    (opts : graphCommandOptions) : option (dependencyGraph * heap) :=
  let '(dg, h) := allocate_vertices opts (Resources snapshot) in
  h ← visit_all sched opts dg (range_vertices sched (map_to_list (vertices dg))) h;
  Some (dg, h).

(** ** Roots *)

(** Lines 238-250.  The root edges are fresh edge objects; [order] is
    the order in which this call ranges over [dg.vertices]. *)
Definition add_root (st : list nat * heap) (entry : URN * nat) : list nat * heap :=
  let '(edge, h) := new_edge (dependencyEdge (Some entry.2) None [] EmptyString) st.2 in
  (st.1 ++ [edge], h).

Definition Roots (order : schedule) (dg : dependencyGraph) (h : heap) : list nat * heap :=
  foldl add_root ([], h) (range_vertices order (map_to_list (vertices dg))).

(** ** Example inputs *)

Definition default_options : graphCommandOptions :=
  mkOptions EmptyString false false "#246C60" "#AA6639" false EmptyString.

Definition resA : State := mkState "A" [] ∅ EmptyString.
Definition resB : State := mkState "B" ["A"] {[ "input" := ["A"] ]} EmptyString.
Definition resC : State := mkState "C" [] ∅ "B".

Definition snapABC : Snapshot := mkSnapshot [resA; resB; resC].

(** ** The command *)

(** An [error] value: the one the command formats itself, kept as the
    call [fmt.Errorf(format, args...)], or one handed back by a
    collaborator. *)
Inductive error :=
  | Errorf (format : string) (args : list string)
  | collaborator_error (message : string).

(** How a call ends: it returns an [error] (nil is [None]) or panics. *)
Inductive outcome :=
  | returned (err : option error)
  | panicked.

(** The answers of the functions the command calls outside this file
    during one run: [RequireStack] (the stack it selects for the given
    name), [s.Snapshot] (which may return a nil snapshot without an
    error), [os.Create], [dotconv.Print], [file.Close] and
    [cmdutil.EmojiOr].  [dotconv.Print] walks the graph it is given and
    calls the methods of its vertices and edges, among them
    [dependencyVertex.Label] on the [to] of an edge, which is nil for a
    parent edge whose parent has no vertex: it may panic. *)
Record environment := mkEnvironment {
  RequireStack : string → error + string;
  Stack_Snapshot : string → error + option Snapshot;
  os_Create : string → option error;
  dotconv_Print : dependencyGraph → heap → string → outcome;
  file_Close : option error;
  EmojiOr : string → string → string
}.

(** What a run does, in order. *)
Inductive effect :=
  | called_makeDependencyGraph
  | called_os_Create (name : string)
  | called_dotconv_Print (fragment : string)
  | called_file_Close
  | called_Printf (format : string) (args : list string)
  | called_Println.

(** Lines 69-113, the [RunE] of the command.  [args[0]] exists when
    cobra has checked [ExactArgs(1)]; indexing an empty [args] panics.
    The file is closed by the two calls of lines 106 and 112, not by a
    [defer]: a panic of [dotconv.Print] leaves it open. *)
Definition RunE (env : environment) (sched : schedule) (cmdOpts : graphCommandOptions)
    (args : list string) : list effect * outcome :=
  match RequireStack env (stackName cmdOpts) with
  | inl err => ([], returned (Some err))
  | inr s =>
    match Stack_Snapshot env s with
    | inl err => ([], returned (Some err))
    | inr None =>
        ([], returned (Some (Errorf "unable to find snapshot for stack %q"
                                    [stackName cmdOpts])))
    | inr (Some snap) =>
      match makeDependencyGraph sched snap cmdOpts with
      | None => ([called_makeDependencyGraph], panicked)
      | Some (dg, h) =>
        match args !! 0 with
        | None => ([called_makeDependencyGraph], panicked)
        | Some name =>
          match os_Create env name with
          | Some err =>
              ([called_makeDependencyGraph; called_os_Create name], returned (Some err))
          | None =>
            match dotconv_Print env dg h (dotFragment cmdOpts) with
            | panicked =>
                ([called_makeDependencyGraph; called_os_Create name;
                  called_dotconv_Print (dotFragment cmdOpts)],
                 panicked)
            | returned (Some err) =>
                ([called_makeDependencyGraph; called_os_Create name;
                  called_dotconv_Print (dotFragment cmdOpts); called_file_Close],
                 returned (Some err))
            | returned None =>
                ([called_makeDependencyGraph; called_os_Create name;
                  called_dotconv_Print (dotFragment cmdOpts);
                  called_Printf "%sWrote stack dependency graph to `%s`"
                                [EmojiOr env "🔍 " EmptyString; name];
                  called_Println; called_file_Close],
                 returned (file_Close env))
            end
          end
        end
      end
    end
  end.

(** An environment in which the selected stack has no snapshot, and one
    in which it has the example snapshot and nothing fails. *)
Definition uninitialized_stack : environment :=
  mkEnvironment (λ name, inr name) (λ _, inr None) (λ _, None)
                (λ _ _ _, returned None) None (λ emoji _, emoji).

Definition deployed_stack : environment :=
  mkEnvironment (λ name, inr name) (λ _, inr (Some snapABC)) (λ _, None)
                (λ _ _ _, returned None) None (λ emoji _, emoji).

Definition options_for_dev : graphCommandOptions :=
  mkOptions "dev" false false "#246C60" "#AA6639" false EmptyString.

(** ** Reading the built graph *)

(** The indices of the cells of an edge store that satisfy [P], in
    allocation order. *)
Definition positions (P : Edge → bool) (l : list Edge) : list nat :=
  filter (λ i, from_option P false (l !! i)) (seq 0 (length l)).

(** A dependency edge whose [to] is the vertex in cell [a]. *)
Definition dependency_into (a : nat) (e : Edge) : bool :=
  is_dependencyEdge e && bool_decide (To e = Some a).

(** An edge of either kind whose [from] is the vertex in cell [a]. *)
Definition leaving (a : nat) (e : Edge) : bool := bool_decide (From e = Some a).

(** A dependency edge from the vertex in cell [b] to the one in cell [a]. *)
Definition dependency_between (a b : nat) (e : Edge) : bool :=
  dependency_into a e && leaving b e.

(** A parent edge whose [from] (the child) is the vertex in cell [a]. *)
Definition parent_of_child (a : nat) (e : Edge) : bool :=
  is_parentEdge e && leaving a e.

(** The edge lists of every vertex hold exactly the edges allocated for
    them, in allocation order. *)
Definition linked (h : heap) : Prop :=
  ∀ a, a < length (vertex_cells h) →
    Ins h a = positions (dependency_into a) (edge_cells h) ∧
    Outs h a = positions (leaving a) (edge_cells h).

(** Every pointer stored in [dg.vertices] points into the vertex store. *)
Definition in_store (dg : dependencyGraph) (h : heap) : Prop :=
  ∀ u b, vertices dg !! u = Some b → b < length (vertex_cells h).

(** The record and the display flag of every vertex. *)
Definition static (h : heap) : list (State * bool) :=
  (λ v, (vresource v, useShortName v)) <$> vertex_cells h.

(** [a] is the position of the last record of [rs] with URN [u]. *)
Definition last_record (rs : list State) (u : URN) (a : nat) : Prop :=
  (ID <$> rs) !! a = Some u ∧ ∀ j, a < j → (ID <$> rs) !! j ≠ Some u.

(** The edges one visit of the second loop allocates for the vertex in
    cell [a] holding record [r], in allocation order. *)
Definition dependency_edges_of (sched : schedule) (opts : graphCommandOptions)
    (dg : dependencyGraph) (a : nat) (r : State) : list Edge :=
  if ignoreDependencyEdges opts then []
  else
    (λ dep, dependencyEdge (Some a) (vertices dg !! dep)
              (blame_of (make_depBlame (range_properties sched a
                                          (map_to_list (PropertyDependencies r)))) dep)
              (dependencyEdgeColor opts)) <$> Dependencies r.

Definition parent_edges_of (opts : graphCommandOptions) (dg : dependencyGraph)
    (a : nat) (r : State) : list Edge :=
  if ignoreParentEdges opts then []
  else if decide (Parent r = EmptyString) then []
  else [parentEdge (vertices dg !! Parent r) (Some a) (parentEdgeColor opts)].

Definition edges_of (sched : schedule) (opts : graphCommandOptions)
    (dg : dependencyGraph) (rs : list State) (entry : URN * nat) : list Edge :=
  match rs !! entry.2 with
  | Some r => dependency_edges_of sched opts dg entry.2 r ++ parent_edges_of opts dg entry.2 r
  | None => []
  end.

(** Every dependency the builder will look up for record [r] has a vertex. *)
Definition resolves (opts : graphCommandOptions) (dg : dependencyGraph) (r : State) : Prop :=
  ignoreDependencyEdges opts = true ∨
  Forall (λ dep, is_Some (vertices dg !! dep)) (Dependencies r).

Definition all_resolve (opts : graphCommandOptions) (dg : dependencyGraph)
    (rs : list State) (order : list (URN * nat)) : Prop :=
  Forall (λ entry, from_option (resolves opts dg) True (rs !! entry.2)) order.

#[global] Instance resolves_dec opts dg r : Decision (resolves opts dg r).
Proof. unfold resolves. apply _. Defined.

#[global] Instance all_resolve_dec opts dg rs order : Decision (all_resolve opts dg rs order).
Proof.
  unfold all_resolve. apply Forall_dec. intros entry.
  destruct (rs !! entry.2); simpl; apply _.
Defined.

(** What [makeDependencyGraph] establishes when it returns graph [dg]
    in store [h]: the map holds the last record of every URN, the
    vertices hold the records of the snapshot, the edge store holds the
    edges of the visits in the order of the second loop, and the edge
    lists are linked to it. *)
Definition built (sched : schedule) (snapshot : Snapshot) (opts : graphCommandOptions)
    (dg : dependencyGraph) (h : heap) : Prop :=
  (∀ u a, vertices dg !! u = Some a ↔ last_record (Resources snapshot) u a) ∧
  dom (vertices dg) =@{gset URN} list_to_set (ID <$> Resources snapshot) ∧
  static h = (λ r, (r, shortNodeName opts)) <$> Resources snapshot ∧
  edge_cells h =
    mjoin (edges_of sched opts dg (Resources snapshot) <$>
              range_vertices sched (map_to_list (vertices dg))) ∧
  linked h.

(** [e.labels] of a dependency edge; a parent edge has none. *)
Definition Labels (e : Edge) : list string :=
  match e with dependencyEdge _ _ labels _ => labels | parentEdge _ _ _ => [] end.

(** The vertex during whose visit an edge is allocated: the [to] of a
    dependency edge, the [from] of a parent edge. *)
Definition owner (e : Edge) : vptr :=
  match e with dependencyEdge to _ _ _ => to | parentEdge _ from _ => from end.

(** The graph and store the builder returns for the example snapshot. *)
Definition graphABC : dependencyGraph * heap :=
  default (mkGraph ∅, empty_heap)
          (makeDependencyGraph listed_order snapABC default_options).

(** A snapshot in which two records carry the URN "A". *)
Definition resA' : State := mkState "A" [] ∅ "B".

Definition snapABA : Snapshot := mkSnapshot [resA; resB; resA'].

Definition graphABA : dependencyGraph * heap :=
  default (mkGraph ∅, empty_heap)
          (makeDependencyGraph listed_order snapABA default_options).


(** [--ignore-dependency-edges] and [--ignore-parent-edges]. *)
Definition without_dependency_edges : graphCommandOptions :=
  mkOptions EmptyString false true "#246C60" "#AA6639" false EmptyString.

Definition without_parent_edges : graphCommandOptions :=
  mkOptions EmptyString true false "#246C60" "#AA6639" false EmptyString.

Definition graphABC_without_parents : dependencyGraph * heap :=
  default (mkGraph ∅, empty_heap)
          (makeDependencyGraph listed_order snapABC without_parent_edges).

(** A record that lists the same dependency twice. *)
Definition resB2 : State := mkState "B" ["A"; "A"] ∅ EmptyString.

Definition snapAB2 : Snapshot := mkSnapshot [resA; resB2].

Definition graphAB2 : dependencyGraph * heap :=
  default (mkGraph ∅, empty_heap)
          (makeDependencyGraph listed_order snapAB2 default_options).

(** A record with two properties that depend on the same resource. *)
Definition resB3 : State :=
  mkState "B" ["A"] {[ "input" := ["A"]; "size" := ["A"] ]} EmptyString.

Definition snapAB3 : Snapshot := mkSnapshot [resA; resB3].

Definition graphAB3 : dependencyGraph * heap :=
  default (mkGraph ∅, empty_heap)
          (makeDependencyGraph listed_order snapAB3 default_options).

(** A record whose parent is not in the snapshot, and one whose
    dependency is not. *)
Definition snap_orphan : Snapshot := mkSnapshot [mkState "C" [] ∅ "X"].

Definition graph_orphan : dependencyGraph * heap :=
  default (mkGraph ∅, empty_heap)
          (makeDependencyGraph listed_order snap_orphan default_options).

Definition snap_dangling : Snapshot := mkSnapshot [mkState "B" ["X"] ∅ EmptyString].

(** A snapshot in which the record with the unknown dependency is
    followed by a record with the same URN. *)
Definition snap_shadowed : Snapshot :=
  mkSnapshot [mkState "B" ["X"] ∅ EmptyString; mkState "B" [] ∅ EmptyString].

(** ** Further notions *)

(** Two edges that agree in everything but the order of their labels. *)
Definition same_edge (e1 e2 : Edge) : Prop :=
  is_dependencyEdge e1 = is_dependencyEdge e2 ∧ To e1 = To e2 ∧ From e1 = From e2 ∧
  Color e1 = Color e2 ∧ Labels e1 ≡ₚ Labels e2.

(** Lines 208-217, [vertex.Data()] and [vertex.Label()].  [URN.Name()]
    belongs to the sdk and is a parameter. *)
Definition vertex_Data (v : dependencyVertex) : State := vresource v.

Definition vertex_Label (Name : URN → string) (v : dependencyVertex) : string :=
  if useShortName v then Name (ID (vresource v)) else ID (vresource v).

(** How often [d] occurs in [deps]. *)
Definition occurrences (d : URN) (deps : list URN) : nat :=
  length (filter (λ x, x = d) deps).

Definition graphABC_reversed : dependencyGraph * heap :=
  default (mkGraph ∅, empty_heap)
          (makeDependencyGraph reversed_order snapABC default_options).

#[global] Instance effect_eq_dec : EqDecision effect.
Proof. solve_decision. Defined.

(** An environment whose stack has the snapshot with the unknown
    dependency. *)
Definition inconsistent_stack : environment :=
  mkEnvironment (λ name, inr name) (λ _, inr (Some snap_dangling)) (λ _, None)
                (λ _ _ _, returned None) None (λ emoji _, emoji).

(** An environment whose stack has the snapshot with the unknown
    parent, and whose [dotconv.Print] panics. *)
Definition orphan_stack : environment :=
  mkEnvironment (λ name, inr name) (λ _, inr (Some snap_orphan)) (λ _, None)
                (λ _ _ _, panicked) None (λ emoji _, emoji).

(** ** The [pulumi state delete] command ([state_delete.go]) *)

Module state_delete.

(** [resource.State] as this command uses it: the record and its
    [Protect] flag, which the graph builder does not read. *)
Record resource_state := mkResourceState { state : State; Protect : bool }.

(** The [error] values of the command: the two error types of package
    [edit] it tells apart (with the fields it reads), the errors it
    makes itself, and any other error of a collaborator. *)
Inductive error :=
  | ResourceHasDependenciesError (Condemned : resource_state)
                                 (Dependencies : list resource_state)
  | ResourceProtectedError (Condemned : resource_state)
  | errors_New (message : string)
  | fmt_Errorf (format : string) (args : list string)
  | fmt_Errorf_w (format : string) (wrapped : error)
  | other_error (message : string).

(** [cmdutil.Diag().Warningf(diag.Message(urn, format), args...)] *)
Record warning := mkWarning { about : URN; format : string; arguments : list string }.

(** A [func(res *resource.State) error]: the warnings it emits, the
    resource as it leaves it, and its result. *)
Definition handler : Type := resource_state → list warning * resource_state * option error.

(** Lines 88-93 *)
Definition handleProtected : handler := λ res,
  ([mkWarning (ID (state res))
              "deleting protected resource %s due to presence of --force"
              [ID (state res)]],
   mkResourceState (state res) false,
   None).

(** What a callback handed to a state edit does: the resources it
    passed to [edit.DeleteResource], in order, the snapshot it leaves
    and its result; or a panic. *)
Inductive edit_result :=
  | edited (deleted : list resource_state) (snap : list resource_state) (err : option error)
  | edit_panicked.

Inductive outcome :=
  | returned (err : option error)
  | panicked.

(** The flags of the command. *)
Record flags := mkFlags {
  force : bool;
  stack : string;
  yes : bool;
  targetDependents : bool;
  all : bool
}.

(** The functions the command calls outside this file.
    [edit.DeleteResource] takes the snapshot, the resource as its index
    in the snapshot, the handler (nil is [None]) and the flag, and
    returns the snapshot as it leaves it and its result. *)
Record environment := mkEnvironment {
  SkipConfirmations : bool;
  Interactive : bool;
  missingNonInteractiveArg : string → error;
  getURNFromState : string → string → error + URN;
  DeleteResource :
    list resource_state → nat → option handler → bool → list resource_state * option error;
  runTotalStateEdit : string → bool → (list resource_state → edit_result) → outcome;
  runStateEdit : string → bool → URN → (list resource_state → nat → edit_result) → outcome;
  URN_Name : URN → string;
  Sprintf : string → list string → string
}.

Inductive effect :=
  | called_getURNFromState
  | called_runTotalStateEdit (stack : string) (showPrompt : bool)
  | called_runStateEdit (stack : string) (showPrompt : bool) (urn : URN)
  | called_Println (line : string).

(** The line feed of the Go literals. *)
Definition newline : string := String (Ascii.ascii_of_nat 10) EmptyString.

Section command.

Variable env : environment.
Variable f : flags.

(** Lines 86-94 *)
Definition handleProtected_or_nil : option handler :=
  if force f then Some handleProtected else None.

(** Lines 102-108: [i] counts down from [len(snap.Resources) - 1],
    read once; [snap.Resources[i]] is read from the snapshot as the
    previous deletions left it and panics when out of range.  The first
    argument is [i + 1]. *)
Fixpoint delete_from (count : nat) (deleted : list resource_state)
    (snap : list resource_state) : edit_result :=
  match count with
  | 0 => edited deleted snap None
  | S i =>
      match snap !! i with
      | None => edit_panicked
      | Some res =>
          match DeleteResource env snap i handleProtected_or_nil (targetDependents f) with
          | (snap, Some err) => edited (deleted ++ [res]) snap (Some err)
          | (snap, None) => delete_from i (deleted ++ [res]) snap
          end
      end
  end.

(** Lines 100-109, the callback of the total edit. *)
Definition delete_all (snap : list resource_state) : edit_result :=
  delete_from (length snap) [] snap.

(** Lines 112-114, the callback of the edit of one resource.  The edit
    hands over a resource of the snapshot, here as its index. *)
Definition delete_one (snap : list resource_state) (res : nat) : edit_result :=
  match snap !! res with
  | None => edit_panicked
  | Some r =>
      let '(snap, err) :=
        DeleteResource env snap res handleProtected_or_nil (targetDependents f) in
      edited [r] snap err
  end.

(** Lines 119-125 *)
Definition dependents_message (Condemned : resource_state)
    (Dependencies : list resource_state) : string :=
  foldl (λ message dependentResource,
           let depUrn := ID (state dependentResource) in
           message +:+ Sprintf env (" * %-15q (%s)" +:+ newline)
                                         [URN_Name env depUrn; depUrn])
        (ID (state Condemned) +:+
           " can't be safely deleted because the following resources depend on it:"
           +:+ newline)
        Dependencies
  +:+ newline +:+ "Delete those resources first or pass --target-dependents.".

(** Lines 116-134 *)
Definition report (err : error) : error :=
  match err with
  | ResourceHasDependenciesError Condemned Dependencies =>
      errors_New (dependents_message Condemned Dependencies)
  | ResourceProtectedError Condemned =>
      fmt_Errorf ("%s can't be safely deleted because it is protected. " +:+
                  "Re-run this command with --force to force deletion")
                 [ID (state Condemned)]
  | _ => err
  end.

(** Lines 116-140, after the edit has returned. *)
Definition finish (calls : list effect) (result : outcome) : list effect * outcome :=
  match result with
  | panicked => (calls, panicked)
  | returned (Some err) => (calls, returned (Some (report err)))
  | returned None =>
      (calls ++ [called_Println (if all f then "Resources deleted" else "Resource deleted")],
       returned None)
  end.

(** Lines 96-115 *)
Definition run_edit (calls : list effect) (urn : URN) : list effect * outcome :=
  let showPrompt := negb (yes f || SkipConfirmations env) in
  if all f then
    finish (calls ++ [called_runTotalStateEdit (stack f) showPrompt])
           (runTotalStateEdit env (stack f) showPrompt delete_all)
  else
    finish (calls ++ [called_runStateEdit (stack f) showPrompt urn])
           (runStateEdit env (stack f) showPrompt urn delete_one).

(** Lines 58-141, the [RunE] of the command. *)
Definition RunE (args : list string) : list effect * outcome :=
  if all f then
    if negb (Nat.eqb (length args) 0) then
      ([], returned (Some (errors_New
                             "cannot specify a resource URN when deleting all resources")))
    else run_edit [] EmptyString
  else
    match args with
    | [] =>
        if negb (Interactive env) then
          ([], returned (Some (missingNonInteractiveArg env "resource URN")))
        else
          match getURNFromState env (stack f) "Select the resource to delete" with
          | inl err =>
              ([called_getURNFromState],
               returned (Some (fmt_Errorf_w "failed to select resource: %w" err)))
          | inr urn => run_edit [called_getURNFromState] urn
          end
    | arg :: _ => run_edit [] arg
    end.

(** [edit.DeleteResource], called on the resource at index [i], leaves
    the resources before [i] in place. *)
Definition keeps_earlier_resources : Prop :=
  ∀ snap i, i < length snap →
    take i (DeleteResource env snap i handleProtected_or_nil (targetDependents f)).1 =
    take i snap.

(** The calls of [edit.DeleteResource] of one run of the loop that
    starts below index [count] on snapshot [snap]: the run goes on
    after a call that returns nil, with the snapshot that call left and
    the next lower index, and ends at index 0 with nil or at the first
    call that returns an error, with that error, the index [j] of the
    call and the snapshot it left. *)
Inductive deletion_run :
    nat → list resource_state → nat → list resource_state → option error → Prop :=
  | run_finished snap :
      deletion_run 0 snap 0 snap None
  | run_failed i snap snap' err :
      DeleteResource env snap i handleProtected_or_nil (targetDependents f) =
        (snap', Some err) →
      deletion_run (S i) snap i snap' (Some err)
  | run_continued i snap snap1 j snap' err :
      DeleteResource env snap i handleProtected_or_nil (targetDependents f) =
        (snap1, None) →
      deletion_run i snap1 j snap' err →
      deletion_run (S i) snap j snap' err.

(** What the command returns for the result of a state edit (lines
    116-140): the error of the edit as [report] rewrites it. *)
Definition reported (result : outcome) : outcome :=
  match result with
  | returned (Some err) => returned (Some (report err))
  | _ => result
  end.

End command.

(** The two error types of package [edit]. *)
Definition is_edit_error (err : error) : bool :=
  match err with
  | ResourceHasDependenciesError _ _ | ResourceProtectedError _ => true
  | _ => false
  end.

(** An environment in which [edit.DeleteResource] removes the resource
    it is given and nothing else, and the edits run their callback on a
    snapshot of two resources. *)
Definition two_resources : list resource_state :=
  [mkResourceState resA false; mkResourceState resB true].

Definition run_callback (result : edit_result) : outcome :=
  match result with
  | edited _ _ err => returned err
  | edit_panicked => panicked
  end.

Definition plain_environment : environment :=
  mkEnvironment false false (λ what, other_error what) (λ _ _, inr "A")
                (λ snap i _ _, (delete i snap, None))
                (λ _ _ callback, run_callback (callback two_resources))
                (λ _ _ _ callback, run_callback (callback two_resources 0))
                (λ urn, urn) (λ format _, format).

Definition delete_everything : flags := mkFlags false EmptyString true false true.

End state_delete.

(** An environment in which the edit of one resource reports that the
    resource is protected, and the flags of [pulumi state delete A]. *)
Definition protected_environment : state_delete.environment :=
  state_delete.mkEnvironment false false (λ what, state_delete.other_error what)
    (λ _ _, inr "A") (λ snap i _ _, (delete i snap, None))
    (λ _ _ _, state_delete.returned None)
    (λ _ _ _ _, state_delete.returned
                  (Some (state_delete.ResourceProtectedError
                           (state_delete.mkResourceState resA true))))
    (λ urn, urn) (λ format _, format).

Definition delete_one_resource : state_delete.flags :=
  state_delete.mkFlags false EmptyString true false false.

(** A record with a property that lists the same resource twice. *)
Definition resB4 : State := mkState "B" ["A"] {[ "input" := ["A"; "A"] ]} EmptyString.

Definition snapAB4 : Snapshot := mkSnapshot [resA; resB4].

Definition graphAB4 : dependencyGraph * heap :=
  default (mkGraph ∅, empty_heap)
          (makeDependencyGraph listed_order snapAB4 default_options).

(** ** Examples *)

Example build_ABC :
  (λ p, (map_to_list (vertices p.1), p.2)) <$>
    makeDependencyGraph listed_order snapABC default_options =
  Some ([("C", 2); ("A", 0); ("B", 1)],
        mkHeap [mkVertex resA [] [1] false; mkVertex resB [1] [] false;
                mkVertex resC [] [0] false]
               [parentEdge (Some 1) (Some 2) "#AA6639";
                dependencyEdge (Some 1) (Some 0) ["input"] "#246C60"]).
Proof. vm_compute. reflexivity. Qed.

Example build_ABC_reversed :
  snd <$> makeDependencyGraph reversed_order snapABC default_options =
  Some (mkHeap [mkVertex resA [] [0] false; mkVertex resB [0] [] false;
                mkVertex resC [] [1] false]
               [dependencyEdge (Some 1) (Some 0) ["input"] "#246C60";
                parentEdge (Some 1) (Some 2) "#AA6639"]).
Proof. vm_compute. reflexivity. Qed.

(** ** The blame map *)

Lemma blame_of_insert m d d' x :
  blame_of (<[d := x]> m) d' = if decide (d = d') then x else blame_of m d'.
Proof.
  unfold blame_of. rewrite lookup_insert. by case_decide.
Qed.

Lemma blame_property_spec deps : ∀ m p k d,
  k ∈ blame_of (blame_property m (p, deps)) d ↔
  k ∈ blame_of m d ∨ (k = p ∧ d ∈ deps).
Proof.
  unfold blame_property; simpl.
  induction deps as [|dep deps IH]; intros m p k d; simpl.
  - split; [by left|]. intros [?|[_ H]]; [done|]. by apply elem_of_nil in H.
  - rewrite IH, blame_of_insert. case_decide as Hd.
    + subst dep. rewrite elem_of_app, list_elem_of_singleton, elem_of_cons. intuition congruence.
    + rewrite elem_of_cons. intuition congruence.
Qed.

Lemma foldl_blame_spec entries : ∀ m k d,
  k ∈ blame_of (foldl blame_property m entries) d ↔
  k ∈ blame_of m d ∨ ∃ deps, (k, deps) ∈ entries ∧ d ∈ deps.
Proof.
  induction entries as [|[p deps] entries IH]; intros m k d; simpl.
  - split; [by left|]. intros [?|(deps & H & _)]; [done|]. by apply elem_of_nil in H.
  - rewrite IH, blame_property_spec. split.
    + intros [[?|[-> ?]]|(deps' & ? & ?)]; [by left| |].
      * right. exists deps. split; [left|done].
      * right. exists deps'. split; [by right|done].
    + intros [?|(deps' & [Heq|?]%elem_of_cons & ?)]; [by left; left| |].
      * injection Heq as -> ->. left. by right.
      * right. by exists deps'.
Qed.

Lemma make_depBlame_spec entries k d :
  k ∈ blame_of (make_depBlame entries) d ↔ ∃ deps, (k, deps) ∈ entries ∧ d ∈ deps.
Proof.
  unfold make_depBlame. rewrite foldl_blame_spec. unfold blame_of at 1.
  rewrite lookup_empty; simpl. split; [|by right].
  intros [H|?]; [|done]. by apply elem_of_nil in H.
Qed.

(** The labels of a dependency edge, whatever the order in which the
    property map was ranged over. *)
Lemma blame_labels (sched : schedule) (a : nat) (r : State) k d :
  k ∈ blame_of (make_depBlame (range_properties sched a
                                 (map_to_list (PropertyDependencies r)))) d ↔
  ∃ deps, PropertyDependencies r !! k = Some deps ∧ d ∈ deps.
Proof.
  rewrite make_depBlame_spec. split; intros (deps & H & ?); exists deps; split; try done.
  - apply elem_of_map_to_list. by rewrite <- (range_properties_perm sched a).
  - rewrite (range_properties_perm sched a). by apply elem_of_map_to_list.
Qed.

(** ** Positions in the edge store *)

Lemma filter_agree {A} (P Q : A → Prop) `{!∀ x, Decision (P x), !∀ x, Decision (Q x)}
    (l : list A) :
  (∀ x, x ∈ l → (P x ↔ Q x)) → filter P l = filter Q l.
Proof.
  induction l as [|x l IH]; intros HPQ; [done|].
  rewrite !filter_cons, IH by (intros y ?; apply HPQ; by right).
  destruct (decide (P x)) as [HP|HP], (decide (Q x)) as [HQ|HQ]; try done.
  - destruct HQ. by apply (HPQ x); [left|].
  - destruct HP. by apply (HPQ x); [left|].
Qed.

Lemma positions_nil P : positions P [] = [].
Proof. done. Qed.

Lemma positions_snoc P l e :
  positions P (l ++ [e]) = positions P l ++ (if P e then [length l] else []).
Proof.
  unfold positions. rewrite length_app; simpl.
  rewrite Nat.add_1_r, seq_S, filter_app; simpl. f_equal.
  - apply filter_agree. intros i [_ Hi]%elem_of_seq; simpl in Hi.
    by rewrite lookup_app_l.
  - rewrite filter_cons, filter_nil. rewrite list_lookup_middle by done; simpl.
    by destruct (P e).
Qed.

Lemma elem_of_positions P l i :
  i ∈ positions P l ↔ ∃ e, l !! i = Some e ∧ P e = true.
Proof.
  unfold positions. rewrite list_elem_of_filter, elem_of_seq. split.
  - intros [HP _]. destruct (l !! i) as [e|]; simpl in HP; [|done].
    exists e. split; [done|]. by apply Is_true_true.
  - intros (e & Hl & HP). split.
    + rewrite Hl; simpl. by apply Is_true_true.
    + apply lookup_lt_Some in Hl. lia.
Qed.

Lemma NoDup_positions P l : NoDup (positions P l).
Proof. apply NoDup_filter, NoDup_seq. Qed.

Lemma length_positions P l :
  length (positions P l) = length (filter (λ e, P e) l).
Proof.
  induction l as [|e l IH] using rev_ind; [done|].
  rewrite positions_snoc, filter_app, !length_app, IH. f_equal.
  rewrite filter_cons, filter_nil. by destruct (P e).
Qed.

Lemma positions_none P l :
  (∀ e, e ∈ l → P e = false) → positions P l = [].
Proof.
  intros HP. destruct (positions P l) as [|i rest] eqn:Heq; [done|].
  assert (i ∈ positions P l) as (e & Hl & He)%elem_of_positions by (rewrite Heq; left).
  apply list_elem_of_lookup_2 in Hl. rewrite (HP e Hl) in He. done.
Qed.

(** ** The store operations *)

Section store.

Implicit Types (h : heap) (a b c edge : nat) (e : Edge).

Lemma static_new_edge e h : static (new_edge e h).2 = static h.
Proof. done. Qed.

Lemma static_push_incoming a edge h : static (push_incoming a edge h) = static h.
Proof.
  unfold static, push_incoming; simpl.
  rewrite (list_fmap_alter _ _ id) by (by apply Forall_true).
  by rewrite list_alter_id.
Qed.

Lemma static_push_outgoing a edge h : static (push_outgoing a edge h) = static h.
Proof.
  unfold static, push_outgoing; simpl.
  rewrite (list_fmap_alter _ _ id) by (by apply Forall_true).
  by rewrite list_alter_id.
Qed.

Lemma length_static h : length (static h) = length (vertex_cells h).
Proof. unfold static. by rewrite length_fmap. Qed.

Lemma static_lookup h a v :
  vertex_cells h !! a = Some v → static h !! a = Some (vresource v, useShortName v).
Proof. intros H. unfold static. by rewrite list_lookup_fmap, H. Qed.

Lemma Ins_push_incoming a edge h c :
  Ins (push_incoming a edge h) c =
  if decide (a = c ∧ c < length (vertex_cells h)) then Ins h c ++ [edge] else Ins h c.
Proof.
  unfold Ins, push_incoming; simpl. rewrite list_lookup_alter.
  destruct (decide (a = c)) as [->|]; [|by rewrite decide_False by tauto].
  destruct (vertex_cells h !! c) as [v|] eqn:Hc; simpl.
  - apply lookup_lt_Some in Hc. by rewrite decide_True.
  - apply lookup_ge_None in Hc. rewrite decide_False; [done|lia].
Qed.

Lemma Outs_push_incoming a edge h c : Outs (push_incoming a edge h) c = Outs h c.
Proof.
  unfold Outs, push_incoming; simpl. rewrite list_lookup_alter.
  destruct (decide (a = c)) as [->|]; [|done]. by destruct (vertex_cells h !! c).
Qed.

Lemma Ins_push_outgoing a edge h c : Ins (push_outgoing a edge h) c = Ins h c.
Proof.
  unfold Ins, push_outgoing; simpl. rewrite list_lookup_alter.
  destruct (decide (a = c)) as [->|]; [|done]. by destruct (vertex_cells h !! c).
Qed.

Lemma Outs_push_outgoing a edge h c :
  Outs (push_outgoing a edge h) c =
  if decide (a = c ∧ c < length (vertex_cells h)) then Outs h c ++ [edge] else Outs h c.
Proof.
  unfold Outs, push_outgoing; simpl. rewrite list_lookup_alter.
  destruct (decide (a = c)) as [->|]; [|by rewrite decide_False by tauto].
  destruct (vertex_cells h !! c) as [v|] eqn:Hc; simpl.
  - apply lookup_lt_Some in Hc. by rewrite decide_True.
  - apply lookup_ge_None in Hc. rewrite decide_False; [done|lia].
Qed.

End store.

(** ** The second loop *)

Section second_loop.

Variable sched : schedule.
Variable opts : graphCommandOptions.
Variable dg : dependencyGraph.

Implicit Types (h : heap) (a b : nat) (r : State).

Lemma linked_snoc_dependency h a b labels color :
  a < length (vertex_cells h) → b < length (vertex_cells h) → linked h →
  linked (push_outgoing b (length (edge_cells h))
            (push_incoming a (length (edge_cells h))
               (new_edge (dependencyEdge (Some a) (Some b) labels color) h).2)).
Proof.
  intros Ha Hb Hl c Hc. simpl in Hc. rewrite !length_alter in Hc.
  destruct (Hl c Hc) as [HI HO].
  rewrite Ins_push_outgoing, Ins_push_incoming, Outs_push_outgoing, Outs_push_incoming.
  simpl. rewrite !length_alter, !positions_snoc.
  unfold Ins, Outs in *; simpl. rewrite HI, HO.
  unfold dependency_into, leaving; simpl. split.
  - destruct (decide (a = c)) as [->|Hne].
    + by rewrite decide_True, bool_decide_true.
    + rewrite decide_False, bool_decide_false by (try tauto; congruence).
      by rewrite app_nil_r.
  - destruct (decide (b = c)) as [->|Hne].
    + by rewrite decide_True, bool_decide_true.
    + rewrite decide_False, bool_decide_false by (try tauto; congruence).
      by rewrite app_nil_r.
Qed.

Lemma linked_snoc_parent h a to color :
  a < length (vertex_cells h) → linked h →
  linked (push_outgoing a (length (edge_cells h))
            (new_edge (parentEdge to (Some a) color) h).2).
Proof.
  intros Ha Hl c Hc. simpl in Hc. rewrite !length_alter in Hc.
  destruct (Hl c Hc) as [HI HO].
  rewrite Ins_push_outgoing, Outs_push_outgoing.
  simpl. rewrite !positions_snoc.
  unfold Ins, Outs in *; simpl. rewrite HI, HO.
  unfold dependency_into, leaving; simpl. split.
  - by rewrite app_nil_r.
  - destruct (decide (a = c)) as [->|Hne].
    + by rewrite decide_True, bool_decide_true.
    + rewrite decide_False, bool_decide_false by (try tauto; congruence).
      by rewrite app_nil_r.
Qed.

Lemma add_dependency_None depBlame a dep h :
  vertices dg !! dep = None → add_dependency opts dg depBlame a dep h = None.
Proof. intros H. unfold add_dependency. by rewrite H. Qed.

Lemma add_dependency_Some depBlame a b dep h :
  vertices dg !! dep = Some b →
  add_dependency opts dg depBlame a dep h =
  Some (push_outgoing b (length (edge_cells h))
          (push_incoming a (length (edge_cells h))
             (new_edge (dependencyEdge (Some a) (Some b) (blame_of depBlame dep)
                                       (dependencyEdgeColor opts)) h).2)).
Proof. intros H. unfold add_dependency. by rewrite H. Qed.

Lemma add_dependencies_None depBlame a deps : ∀ h,
  ¬ Forall (λ dep, is_Some (vertices dg !! dep)) deps →
  add_dependencies opts dg depBlame a deps h = None.
Proof.
  induction deps as [|dep deps IH]; intros h Hn; simpl.
  - destruct Hn. constructor.
  - destruct (vertices dg !! dep) as [b|] eqn:Hdep.
    + rewrite (add_dependency_Some _ _ b) by done; simpl.
      apply IH. intros HF. apply Hn. constructor; [by rewrite Hdep|done].
    + by rewrite add_dependency_None.
Qed.

Lemma add_dependencies_Some depBlame a deps : ∀ h,
  Forall (λ dep, is_Some (vertices dg !! dep)) deps →
  a < length (vertex_cells h) → in_store dg h → linked h →
  ∃ h', add_dependencies opts dg depBlame a deps h = Some h' ∧
        edge_cells h' = edge_cells h ++
          ((λ dep, dependencyEdge (Some a) (vertices dg !! dep) (blame_of depBlame dep)
                     (dependencyEdgeColor opts)) <$> deps) ∧
        static h' = static h ∧ linked h'.
Proof.
  induction deps as [|dep deps IH]; intros h HF Ha Hs Hl; simpl.
  - exists h. rewrite app_nil_r. auto.
  - apply Forall_cons in HF as [[b Hdep] HF].
    rewrite (add_dependency_Some _ _ b) by done; simpl.
    pose proof (Hs _ _ Hdep) as Hb.
    edestruct (IH (push_outgoing b (length (edge_cells h))
            (push_incoming a (length (edge_cells h))
               (new_edge (dependencyEdge (Some a) (Some b) (blame_of depBlame dep)
                  (dependencyEdgeColor opts)) h).2))) as (h' & Hrun & Hcells & Hstat & Hl').
    + done.
    + simpl. by rewrite !length_alter.
    + intros u c Hu. simpl. rewrite !length_alter. by eapply Hs.
    + by apply linked_snoc_dependency.
    + exists h'. split; [done|]. split; [|split; [|done]].
      * rewrite Hcells; simpl. rewrite Hdep. by rewrite <- app_assoc.
      * rewrite Hstat. by rewrite static_push_outgoing, static_push_incoming.
Qed.

Lemma add_parent_spec a r h :
  a < length (vertex_cells h) → linked h →
  edge_cells (add_parent opts dg a r h) = edge_cells h ++ parent_edges_of opts dg a r ∧
  static (add_parent opts dg a r h) = static h ∧
  linked (add_parent opts dg a r h).
Proof.
  intros Ha Hl. unfold add_parent, parent_edges_of.
  destruct (ignoreParentEdges opts); [by rewrite app_nil_r|].
  case_decide; [by rewrite app_nil_r|]. simpl. split; [done|]. split.
  - by rewrite static_push_outgoing.
  - by apply linked_snoc_parent.
Qed.

Lemma visit_None a v h :
  vertex_cells h !! a = Some v → ¬ resolves opts dg (vresource v) →
  visit sched opts dg a h = None.
Proof.
  intros Hv Hn. unfold visit. rewrite Hv; simpl.
  destruct (ignoreDependencyEdges opts) eqn:Hi; [destruct Hn; by left|].
  rewrite add_dependencies_None; [done|]. intros HF. apply Hn. by right.
Qed.

Lemma visit_Some a v h :
  vertex_cells h !! a = Some v → resolves opts dg (vresource v) →
  in_store dg h → linked h →
  ∃ h', visit sched opts dg a h = Some h' ∧
        edge_cells h' = edge_cells h ++
          dependency_edges_of sched opts dg a (vresource v) ++
          parent_edges_of opts dg a (vresource v) ∧
        static h' = static h ∧ linked h'.
Proof.
  intros Hv Hr Hs Hl. unfold visit, dependency_edges_of. rewrite Hv; simpl.
  pose proof (lookup_lt_Some _ _ _ Hv) as Ha.
  destruct (ignoreDependencyEdges opts) eqn:Hi; simpl.
  - destruct (add_parent_spec a (vresource v) h Ha Hl) as (Hc & Hst & Hl').
    eauto.
  - destruct Hr as [Hr|Hr]; [congruence|].
    destruct (add_dependencies_Some
                (make_depBlame (range_properties sched a
                   (map_to_list (PropertyDependencies (vresource v)))))
                a _ h Hr Ha Hs Hl) as (h1 & -> & Hc1 & Hst1 & Hl1); simpl.
    assert (a < length (vertex_cells h1)) as Ha1
      by (by rewrite <- length_static, Hst1, length_static).
    destruct (add_parent_spec a (vresource v) h1 Ha1 Hl1) as (Hc & Hst & Hl').
    eexists. split; [done|]. split; [|split; [|done]].
    + by rewrite Hc, Hc1, <- app_assoc.
    + by rewrite Hst.
Qed.

End second_loop.

Section whole_loop.

Variable sched : schedule.
Variable opts : graphCommandOptions.
Variable dg : dependencyGraph.

Lemma records_lookup h a :
  (static h).*1 !! a = vresource <$> vertex_cells h !! a.
Proof.
  unfold static. rewrite !list_lookup_fmap. by destruct (vertex_cells h !! a).
Qed.

Lemma visit_all_spec order : ∀ h,
  in_store dg h → linked h →
  Forall (λ entry : URN * nat, entry.2 < length (vertex_cells h)) order →
  (all_resolve opts dg (static h).*1 order →
     ∃ h', visit_all sched opts dg order h = Some h' ∧
           edge_cells h' =
             edge_cells h ++ mjoin (edges_of sched opts dg (static h).*1 <$> order) ∧
           static h' = static h ∧ linked h') ∧
  (¬ all_resolve opts dg (static h).*1 order →
     visit_all sched opts dg order h = None).
Proof.
  induction order as [|[u a] order IH]; intros h Hs Hl Hb.
  - split.
    + intros _. exists h. simpl. rewrite app_nil_r. auto.
    + intros Hn. destruct Hn. constructor.
  - apply Forall_cons in Hb as [Ha Hb]; simpl in Ha.
    destruct (lookup_lt_is_Some_2 _ _ Ha) as [v Hv].
    assert ((static h).*1 !! a = Some (vresource v)) as Hrec
      by (by rewrite records_lookup, Hv).
    destruct (decide (resolves opts dg (vresource v))) as [Hr|Hr].
    + destruct (visit_Some sched opts dg a v h Hv Hr Hs Hl)
        as (h1 & Hrun & Hc1 & Hst1 & Hl1).
      assert (length (vertex_cells h1) = length (vertex_cells h)) as Hlen
        by (by rewrite <- !length_static, Hst1).
      destruct (IH h1) as [IHsome IHnone].
      * intros u' b Hu'. rewrite Hlen. by eapply Hs.
      * done.
      * by rewrite Hlen.
      * rewrite Hst1 in IHsome, IHnone. simpl. rewrite Hrun; simpl. split.
        -- intros [_ Hall]%Forall_cons.
           destruct (IHsome Hall) as (h' & Hrun' & Hc' & Hst' & Hl').
           exists h'. split; [done|]. split; [|split; [congruence|done]].
           rewrite Hc', Hc1. unfold edges_of at 2; simpl. rewrite Hrec.
           by rewrite <- !app_assoc.
        -- intros Hn. apply IHnone. intros Hall. apply Hn.
           constructor; [by simpl; rewrite Hrec|done].
    + split.
      * intros [Hhd _]%Forall_cons. simpl in Hhd. by rewrite Hrec in Hhd.
      * intros _. simpl. by rewrite (visit_None sched opts dg a v).
Qed.

End whole_loop.

(** ** The first loop *)

Lemma last_record_snoc rs r u a :
  last_record (rs ++ [r]) u a ↔
  if decide (ID r = u) then a = length rs else last_record rs u a.
Proof.
  unfold last_record. rewrite fmap_app; simpl.
  assert (length (ID <$> rs) = length rs) as Hlen by apply length_fmap.
  case_decide as Hid; split.
  - intros [Ha Hlast].
    destruct (decide (a < length rs)) as [Hlt|Hge].
    + destruct (Hlast (length rs) Hlt).
      rewrite <- Hlen at 1. rewrite list_lookup_middle by done. by f_equal.
    + apply lookup_lt_Some in Ha. rewrite length_app in Ha; simpl in Ha. lia.
  - intros ->. split.
    + rewrite <- Hlen at 1. rewrite list_lookup_middle by done. by f_equal.
    + intros j Hj. rewrite lookup_ge_None_2; [done|].
      rewrite length_app; simpl. lia.
  - intros [Ha Hlast].
    assert (a < length rs) as Hlt.
    { apply lookup_lt_Some in Ha as Hb. rewrite length_app in Hb; simpl in Hb.
      destruct (decide (a = length rs)) as [->|]; [|lia].
      rewrite <- Hlen in Ha at 1. rewrite list_lookup_middle in Ha by done. congruence. }
    rewrite lookup_app_l in Ha by lia. split; [done|].
    intros j Hj Hu. apply (Hlast j Hj).
    rewrite lookup_app_l; [done|]. by apply lookup_lt_Some in Hu.
  - intros [Ha Hlast]. apply lookup_lt_Some in Ha as Hlt. split.
    + by rewrite lookup_app_l.
    + intros j Hj Hu.
      destruct (decide (j < length rs)) as [Hjl|Hjg].
      * rewrite lookup_app_l in Hu by lia. by apply (Hlast j).
      * apply lookup_lt_Some in Hu as Hb. rewrite length_app in Hb; simpl in Hb.
        assert (j = length (ID <$> rs)) as -> by lia.
        rewrite list_lookup_middle in Hu by done. congruence.
Qed.

Lemma allocate_vertices_spec opts rs :
  vertex_cells (allocate_vertices opts rs).2 =
    (λ r, mkVertex r [] [] (shortNodeName opts)) <$> rs ∧
  edge_cells (allocate_vertices opts rs).2 = [] ∧
  (∀ u a, vertices (allocate_vertices opts rs).1 !! u = Some a ↔ last_record rs u a) ∧
  dom (vertices (allocate_vertices opts rs).1) =@{gset URN} list_to_set (ID <$> rs).
Proof.
  induction rs as [|r rs (Hcells & Hedges & Hmap & Hdom)] using rev_ind.
  - split; [done|]. split; [done|]. split; [|done].
    intros u a. simpl. rewrite lookup_empty. split; [done|]. by intros [? _].
  - unfold allocate_vertices in *. rewrite foldl_snoc.
    destruct (foldl (allocate_vertex opts) (mkGraph ∅, empty_heap) rs) as [dg h].
    simpl in *. split; [|split; [done|split]].
    + by rewrite Hcells, fmap_app.
    + intros u a. rewrite last_record_snoc, lookup_insert.
      case_decide; [|apply Hmap].
      rewrite Hcells, length_fmap. split; [congruence|by intros ->].
    + rewrite dom_insert_L, Hdom, fmap_app, list_to_set_app_L; simpl.
      rewrite union_empty_r_L. apply (comm_L _).
Qed.

(** ** The builder as a whole *)

Lemma records_of_allocated opts rs :
  (static (allocate_vertices opts rs).2).*1 = rs.
Proof.
  destruct (allocate_vertices_spec opts rs) as (Hcells & _).
  unfold static. rewrite Hcells, <- !list_fmap_compose.
  rewrite <- (list_fmap_id rs) at 2. by apply list_fmap_ext.
Qed.

Lemma makeDependencyGraph_spec sched snapshot opts :
  let dg := (allocate_vertices opts (Resources snapshot)).1 in
  let order := range_vertices sched (map_to_list (vertices dg)) in
  (all_resolve opts dg (Resources snapshot) order →
     ∃ h, makeDependencyGraph sched snapshot opts = Some (dg, h) ∧
          built sched snapshot opts dg h) ∧
  (¬ all_resolve opts dg (Resources snapshot) order →
     makeDependencyGraph sched snapshot opts = None).
Proof.
  intros dg order. unfold makeDependencyGraph.
  destruct (allocate_vertices_spec opts (Resources snapshot))
    as (Hcells & Hedges & Hmap & Hdom).
  pose proof (records_of_allocated opts (Resources snapshot)) as Hrecs.
  subst dg order.
  destruct (allocate_vertices opts (Resources snapshot)) as [dg h0] eqn:Halloc.
  simpl in *.
  assert (in_store dg h0) as Hstore.
  { intros u b [Hb _]%Hmap. apply lookup_lt_Some in Hb.
    by rewrite Hcells, length_fmap, <- (length_fmap ID). }
  assert (linked h0) as Hlinked.
  { intros a Ha. unfold Ins, Outs. rewrite Hedges, Hcells, list_lookup_fmap.
    by destruct (Resources snapshot !! a). }
  destruct (visit_all_spec sched opts dg
              (range_vertices sched (map_to_list (vertices dg))) h0 Hstore Hlinked)
    as [Hsome Hnone].
  { apply Forall_forall. intros [u a] Hin. simpl. apply (Hstore u).
    apply elem_of_map_to_list. by rewrite <- (range_vertices_perm sched). }
  rewrite Hrecs in Hsome, Hnone. split.
  - intros Hall. destruct (Hsome Hall) as (h & -> & Hc & Hst & Hl). simpl.
    exists h. split; [done|].
    split; [done|]. split; [done|]. split; [|split; [|done]].
    + rewrite Hst. unfold static. rewrite Hcells, <- list_fmap_compose.
      by apply list_fmap_ext.
    + by rewrite Hc, Hedges.
  - intros Hn. by rewrite (Hnone Hn).
Qed.

Lemma makeDependencyGraph_built sched snapshot opts dg h :
  makeDependencyGraph sched snapshot opts = Some (dg, h) →
  built sched snapshot opts dg h ∧
  all_resolve opts dg (Resources snapshot)
    (range_vertices sched (map_to_list (vertices dg))).
Proof.
  intros Hrun.
  destruct (makeDependencyGraph_spec sched snapshot opts) as [Hsome Hnone].
  destruct (decide (all_resolve opts (allocate_vertices opts (Resources snapshot)).1
                      (Resources snapshot)
                      (range_vertices sched (map_to_list
                         (vertices (allocate_vertices opts (Resources snapshot)).1)))))
    as [Hall|Hall].
  - destruct (Hsome Hall) as (h' & Hrun' & Hb).
    rewrite Hrun in Hrun'. by simplify_eq.
  - rewrite (Hnone Hall) in Hrun. done.
Qed.

(** ** Facts about a built graph *)

Lemma filter_none {A} (P : A → Prop) `{!∀ x, Decision (P x)} (l : list A) :
  (∀ x, x ∈ l → ¬ P x) → filter P l = [].
Proof.
  induction l as [|x l IH]; intros HP; [done|].
  rewrite filter_cons_False by (apply HP; left). apply IH. intros y ?. apply HP. by right.
Qed.

Lemma owner_edges_of sched opts dg rs entry e :
  e ∈ edges_of sched opts dg rs entry → owner e = Some entry.2.
Proof.
  unfold edges_of, dependency_edges_of, parent_edges_of.
  destruct (rs !! entry.2) as [r|]; [|by intros ?%elem_of_nil].
  intros [He|He]%elem_of_app.
  - destruct (ignoreDependencyEdges opts); [by apply elem_of_nil in He|].
    apply list_elem_of_fmap in He as (dep & -> & _). done.
  - destruct (ignoreParentEdges opts); [by apply elem_of_nil in He|].
    case_decide; [by apply elem_of_nil in He|].
    apply list_elem_of_singleton in He as ->. done.
Qed.

Lemma filter_join_owned sched opts dg rs (P : Edge → bool) a u order :
  NoDup order.*2 → (∀ e, P e = true → owner e = Some a) →
  filter (λ e, P e) (mjoin (edges_of sched opts dg rs <$> order)) =
  if decide (a ∈ order.*2) then filter (λ e, P e) (edges_of sched opts dg rs (u, a)) else [].
Proof.
  intros Hnd HP. induction order as [|[u' a'] order IH].
  - rewrite decide_False; [done|]. apply not_elem_of_nil.
  - rewrite fmap_cons in Hnd. apply NoDup_cons in Hnd as [Hnotin Hnd]. simpl in Hnotin.
    rewrite !fmap_cons. change (mjoin (?x :: ?l)) with (x ++ mjoin l).
    rewrite filter_app, (IH Hnd).
    destruct (decide (a' = a)) as [->|Hne].
    + rewrite (decide_True (P:=a ∈ _ :: _)) by left.
      rewrite decide_False by done. by rewrite app_nil_r.
    + rewrite (filter_none _ (edges_of sched opts dg rs (u', a'))).
      * destruct (decide (a ∈ order.*2)) as [Hin|Hout].
        -- rewrite decide_True; [done|by right].
        -- rewrite decide_False; [done|]. by intros [?|?]%elem_of_cons.
      * intros e He%owner_edges_of HPe%Is_true_true. apply HP in HPe.
        simpl in He. congruence.
Qed.

Section graph_facts.

Context {sched : schedule} {snapshot : Snapshot} {opts : graphCommandOptions}.
Context {dg : dependencyGraph} {h : heap}.
Hypothesis Hbuilt : built sched snapshot opts dg h.

Lemma built_vertex u a :
  vertices dg !! u = Some a →
  ∃ v, vertex_cells h !! a = Some v ∧ Resources snapshot !! a = Some (vresource v) ∧
       ID (vresource v) = u ∧ useShortName v = shortNodeName opts.
Proof.
  destruct Hbuilt as (Hmap & _ & Hst & _).
  intros [Hu _]%Hmap. rewrite list_lookup_fmap in Hu.
  destruct (Resources snapshot !! a) as [r|] eqn:Hr; [|done].
  assert (static h !! a = Some (r, shortNodeName opts)) as Hs
    by (by rewrite Hst, list_lookup_fmap, Hr).
  unfold static in Hs. rewrite list_lookup_fmap in Hs.
  destruct (vertex_cells h !! a) as [v|]; [|done].
  exists v. simpl in *. by simplify_eq.
Qed.

Lemma built_record a v :
  vertex_cells h !! a = Some v → Resources snapshot !! a = Some (vresource v).
Proof.
  destruct Hbuilt as (_ & _ & Hst & _). intros Hv.
  apply static_lookup in Hv. rewrite Hst, list_lookup_fmap in Hv.
  destruct (Resources snapshot !! a); by simplify_eq/=.
Qed.

Lemma built_length : length (vertex_cells h) = length (Resources snapshot).
Proof.
  destruct Hbuilt as (_ & _ & Hst & _).
  by rewrite <- length_static, Hst, length_fmap.
Qed.

Lemma built_inj u u' a :
  vertices dg !! u = Some a → vertices dg !! u' = Some a → u = u'.
Proof.
  destruct Hbuilt as (Hmap & _).
  intros [Hu _]%Hmap [Hu' _]%Hmap. congruence.
Qed.

Lemma built_is_vertex u : u ∈ ID <$> Resources snapshot ↔ is_Some (vertices dg !! u).
Proof.
  destruct Hbuilt as (_ & Hdom & _).
  by rewrite <- elem_of_dom, Hdom, elem_of_list_to_set.
Qed.

Lemma built_size : size (vertices dg) = length (remove_dups (ID <$> Resources snapshot)).
Proof.
  destruct Hbuilt as (_ & Hdom & _).
  rewrite <- size_dom, Hdom.
  rewrite <- (size_list_to_set (C:=gset URN) (remove_dups _)) by apply NoDup_remove_dups.
  f_equal. apply set_eq. intros u.
  by rewrite !elem_of_list_to_set, elem_of_remove_dups.
Qed.

Lemma NoDup_entries : NoDup (map_to_list (vertices dg)).*2.
Proof.
  apply NoDup_fmap_2_strong; [|apply NoDup_map_to_list].
  intros [u a] [u' a'] Hu%elem_of_map_to_list Hu'%elem_of_map_to_list Heq.
  simpl in Heq. subst a'. f_equal. by eapply built_inj.
Qed.

Lemma NoDup_order : NoDup (range_vertices sched (map_to_list (vertices dg))).*2.
Proof.
  rewrite (range_vertices_perm sched). apply NoDup_entries.
Qed.

Lemma elem_of_order u a :
  (u, a) ∈ range_vertices sched (map_to_list (vertices dg)) ↔ vertices dg !! u = Some a.
Proof. by rewrite (range_vertices_perm sched), elem_of_map_to_list. Qed.

(** The edges selected by [P], all allocated during the visit of the
    vertex in cell [a], are those of that visit. *)
Lemma filter_owned (P : Edge → bool) u a r :
  vertices dg !! u = Some a → Resources snapshot !! a = Some r →
  (∀ e, P e = true → owner e = Some a) →
  filter (λ e, P e) (edge_cells h) =
  filter (λ e, P e) (dependency_edges_of sched opts dg a r ++ parent_edges_of opts dg a r).
Proof.
  intros Hu Hr HP. destruct Hbuilt as (_ & _ & _ & -> & _).
  rewrite (filter_join_owned _ _ _ _ P a u) by (apply NoDup_order || done).
  rewrite decide_True.
  - unfold edges_of; simpl. by rewrite Hr.
  - apply list_elem_of_fmap. exists (u, a). split; [done|]. by apply elem_of_order.
Qed.

Lemma elem_of_built_edges e :
  e ∈ edge_cells h ↔
  ∃ u a r, vertices dg !! u = Some a ∧ Resources snapshot !! a = Some r ∧
           e ∈ dependency_edges_of sched opts dg a r ++ parent_edges_of opts dg a r.
Proof.
  destruct Hbuilt as (_ & _ & _ & -> & _).
  rewrite list_elem_of_join. split.
  - intros (es & He & [[u a] [-> Hin]]%list_elem_of_fmap).
    apply elem_of_order in Hin. unfold edges_of in He; simpl in He.
    destruct (Resources snapshot !! a) as [r|] eqn:Hr; [|by apply elem_of_nil in He].
    by exists u, a, r.
  - intros (u & a & r & Hu & Hr & He).
    exists (edges_of sched opts dg (Resources snapshot) (u, a)). split.
    + unfold edges_of; simpl. by rewrite Hr.
    + apply list_elem_of_fmap. exists (u, a). split; [done|]. by apply elem_of_order.
Qed.

Lemma built_Ins a :
  a < length (vertex_cells h) →
  Ins h a = positions (dependency_into a) (edge_cells h).
Proof. destruct Hbuilt as (_ & _ & _ & _ & Hl). intros Ha. by apply Hl. Qed.

Lemma built_Outs a :
  a < length (vertex_cells h) →
  Outs h a = positions (leaving a) (edge_cells h).
Proof. destruct Hbuilt as (_ & _ & _ & _ & Hl). intros Ha. by apply Hl. Qed.

End graph_facts.

(** ** Roots *)

Lemma foldl_add_root entries : ∀ acc h,
  foldl add_root (acc, h) entries =
  (acc ++ seq (length (edge_cells h)) (length entries),
   mkHeap (vertex_cells h)
          (edge_cells h ++
             ((λ entry : URN * nat, dependencyEdge (Some entry.2) None [] EmptyString)
                <$> entries))).
Proof.
  induction entries as [|entry entries IH]; intros acc h; simpl.
  - rewrite !app_nil_r. by destruct h.
  - unfold add_root at 2; simpl. rewrite IH; simpl.
    rewrite length_app, Nat.add_1_r, <- !app_assoc. done.
Qed.

Lemma length_range_vertices (order : schedule) (dg : dependencyGraph) :
  length (range_vertices order (map_to_list (vertices dg))) = size (vertices dg).
Proof.
  rewrite <- length_map_to_list. apply Permutation_length, range_vertices_perm.
Qed.

Lemma Roots_spec order dg h :
  Roots order dg h =
  (seq (length (edge_cells h)) (size (vertices dg)),
   mkHeap (vertex_cells h)
          (edge_cells h ++
             ((λ entry : URN * nat, dependencyEdge (Some entry.2) None [] EmptyString)
                <$> range_vertices order (map_to_list (vertices dg))))).
Proof.
  unfold Roots. rewrite foldl_add_root; simpl.
  by rewrite length_range_vertices.
Qed.

(** The root edge at position [k] of the result belongs to the [k]-th
    vertex the call ranged over. *)
Lemma Roots_lookup order dg h i e :
  i ∈ (Roots order dg h).1 → edge_cells (Roots order dg h).2 !! i = Some e →
  ∃ u a, range_vertices order (map_to_list (vertices dg)) !! (i - length (edge_cells h))
           = Some (u, a) ∧
         e = dependencyEdge (Some a) None [] EmptyString.
Proof.
  rewrite Roots_spec; simpl. intros [Hge Hlt]%elem_of_seq.
  rewrite lookup_app_r, list_lookup_fmap by done.
  destruct (range_vertices order (map_to_list (vertices dg)) !! (i - length (edge_cells h)))
    as [[u a]|]; [|done].
  intros [= <-]. by exists u, a.
Qed.

Lemma Roots_is_Some order dg h i :
  i ∈ (Roots order dg h).1 → is_Some (edge_cells (Roots order dg h).2 !! i).
Proof.
  rewrite Roots_spec; simpl. intros [Hge Hlt]%elem_of_seq.
  apply lookup_lt_is_Some. rewrite length_app, length_fmap.
  rewrite length_range_vertices. lia.
Qed.

(** C1: for every graph [makeDependencyGraph] returns, [Roots] returns
    one edge per vertex: as many edges as the graph has vertices, no
    edge twice, every edge with [to] a vertex of the graph and [from]
    nil, and for every vertex exactly one edge whose [to] is that
    vertex.  The in-degree of the vertex plays no part. *)
Theorem Roots_one_edge_per_vertex sched snapshot opts order dg h :
  makeDependencyGraph sched snapshot opts = Some (dg, h) →
  let roots := (Roots order dg h).1 in
  let h' := (Roots order dg h).2 in
  length roots = size (vertices dg) ∧
  NoDup roots ∧
  (∀ i, i ∈ roots →
     ∃ u a, vertices dg !! u = Some a ∧
            edge_cells h' !! i = Some (dependencyEdge (Some a) None [] EmptyString)) ∧
  (∀ u a, vertices dg !! u = Some a →
     ∃ i, i ∈ roots ∧
          edge_cells h' !! i = Some (dependencyEdge (Some a) None [] EmptyString) ∧
          ∀ j e, j ∈ roots → edge_cells h' !! j = Some e → To e = Some a → j = i).
Proof.
  intros [Hbuilt _]%makeDependencyGraph_built roots h'.
  pose proof (NoDup_entries Hbuilt) as Hnd.
  rewrite <- (range_vertices_perm order) in Hnd.
  split; [|split; [|split]].
  - subst roots. rewrite Roots_spec; simpl. by rewrite length_seq.
  - subst roots. rewrite Roots_spec; simpl. apply NoDup_seq.
  - intros i Hi. destruct (Roots_is_Some order dg h i Hi) as [e He].
    destruct (Roots_lookup order dg h i e Hi He) as (u & a & Hk & ->).
    exists u, a. split; [|done].
    apply elem_of_map_to_list. rewrite <- (range_vertices_perm order).
    by eapply list_elem_of_lookup_2.
  - intros u a Hu.
    assert ((u, a) ∈ range_vertices order (map_to_list (vertices dg))) as Hin
      by (by rewrite (range_vertices_perm order), elem_of_map_to_list).
    apply list_elem_of_lookup_1 in Hin as [k Hk].
    pose proof (lookup_lt_Some _ _ _ Hk) as Hlt.
    rewrite length_range_vertices in Hlt.
    exists (length (edge_cells h) + k). subst roots h'. split; [|split].
    + rewrite Roots_spec; simpl. apply elem_of_seq. lia.
    + rewrite Roots_spec; simpl.
      rewrite lookup_app_r, list_lookup_fmap by lia.
      replace (length (edge_cells h) + k - length (edge_cells h)) with k by lia.
      by rewrite Hk.
    + intros j e Hj He Hto.
      destruct (Roots_lookup order dg h j e Hj He) as (u' & a' & Hk' & ->).
      simpl in Hto. injection Hto as ->.
      assert (j - length (edge_cells h) = k) as <-.
      { eapply (NoDup_lookup _ _ _ a Hnd); rewrite list_lookup_fmap.
        - by rewrite Hk'.
        - by rewrite Hk. }
      rewrite Roots_spec in Hj; simpl in Hj. apply elem_of_seq in Hj. lia.
Qed.

Lemma graphABC_built :
  makeDependencyGraph listed_order snapABC default_options =
  Some (graphABC.1, graphABC.2).
Proof. vm_compute. reflexivity. Qed.

Lemma Roots_one_edge_per_vertex_witness :
  makeDependencyGraph listed_order snapABC default_options =
    Some (graphABC.1, graphABC.2) ∧
  length (Roots reversed_order graphABC.1 graphABC.2).1 = size (vertices graphABC.1).
Proof.
  split; [exact graphABC_built|].
  exact (proj1 (Roots_one_edge_per_vertex listed_order snapABC default_options
                  reversed_order graphABC.1 graphABC.2 graphABC_built)).
Defined.

Example Roots_ABC :
  (λ p, (p.1, drop 2 (edge_cells p.2))) (Roots listed_order graphABC.1 graphABC.2) =
  ([2; 3; 4],
   [dependencyEdge (Some 2) None [] EmptyString; dependencyEdge (Some 0) None [] EmptyString;
    dependencyEdge (Some 1) None [] EmptyString]).
Proof. vm_compute. reflexivity. Qed.

(** ** Labels and colors *)

Lemma dependency_edge_color sched opts dg a r e :
  e ∈ dependency_edges_of sched opts dg a r →
  is_dependencyEdge e = true ∧ Color e = dependencyEdgeColor opts ∧ To e = Some a.
Proof.
  unfold dependency_edges_of.
  destruct (ignoreDependencyEdges opts); [by intros ?%elem_of_nil|].
  by intros (dep & -> & _)%list_elem_of_fmap.
Qed.

Lemma parent_edge_color opts dg a r e :
  e ∈ parent_edges_of opts dg a r →
  e = parentEdge (vertices dg !! Parent r) (Some a) (parentEdgeColor opts) ∧
  ignoreParentEdges opts = false ∧ Parent r ≠ EmptyString.
Proof.
  unfold parent_edges_of.
  destruct (ignoreParentEdges opts); [by intros ?%elem_of_nil|].
  case_decide; [by intros ?%elem_of_nil|].
  by intros ->%list_elem_of_singleton.
Qed.

(** C9: every root edge has the empty label and the empty color,
    whereas every dependency edge of a built graph carries the
    configured dependency color. *)
Theorem root_edges_unlabelled_uncolored sched snapshot opts order dg h :
  makeDependencyGraph sched snapshot opts = Some (dg, h) →
  (∀ i, i ∈ (Roots order dg h).1 →
     ∃ e, edge_cells (Roots order dg h).2 !! i = Some e ∧
          Labels e = [] ∧ Label e = EmptyString ∧ Color e = EmptyString) ∧
  (∀ e, e ∈ edge_cells h → is_dependencyEdge e = true →
     Color e = dependencyEdgeColor opts).
Proof.
  intros [Hbuilt _]%makeDependencyGraph_built. split.
  - intros i Hi. destruct (Roots_is_Some order dg h i Hi) as [e He].
    destruct (Roots_lookup order dg h i e Hi He) as (u & a & _ & ->).
    by exists (dependencyEdge (Some a) None [] EmptyString).
  - intros e (u & a & r & _ & _ & [He|He]%elem_of_app)%(elem_of_built_edges Hbuilt) Hdep.
    + by apply dependency_edge_color in He as (_ & ? & _).
    + apply parent_edge_color in He as (-> & _). done.
Qed.

Lemma root_edges_unlabelled_uncolored_witness :
  makeDependencyGraph listed_order snapABC default_options =
    Some (graphABC.1, graphABC.2) ∧
  Color (dependencyEdge (Some 1) (Some 0) ["input"] "#246C60") = "#246C60".
Proof.
  split; [exact graphABC_built|].
  apply (proj2 (root_edges_unlabelled_uncolored listed_order snapABC default_options
                  listed_order graphABC.1 graphABC.2 graphABC_built)); [|reflexivity].
  vm_compute. right. left.
Defined.

(** ** Membership in the edge lists *)

Section edge_lists.

Context {sched : schedule} {snapshot : Snapshot} {opts : graphCommandOptions}.
Context {dg : dependencyGraph} {h : heap}.
Hypothesis Hbuilt : built sched snapshot opts dg h.

Lemma elem_of_Ins a i :
  i ∈ Ins h a ↔
  a < length (vertex_cells h) ∧ ∃ e, edge_cells h !! i = Some e ∧ dependency_into a e = true.
Proof.
  destruct (decide (a < length (vertex_cells h))) as [Ha|Ha].
  - rewrite (built_Ins Hbuilt a Ha), elem_of_positions. tauto.
  - unfold Ins. rewrite lookup_ge_None_2 by lia. simpl.
    rewrite elem_of_nil. tauto.
Qed.

Lemma elem_of_Outs a i :
  i ∈ Outs h a ↔
  a < length (vertex_cells h) ∧ ∃ e, edge_cells h !! i = Some e ∧ leaving a e = true.
Proof.
  destruct (decide (a < length (vertex_cells h))) as [Ha|Ha].
  - rewrite (built_Outs Hbuilt a Ha), elem_of_positions. tauto.
  - unfold Outs. rewrite lookup_ge_None_2 by lia. simpl.
    rewrite elem_of_nil. tauto.
Qed.

Lemma NoDup_Ins a : NoDup (Ins h a).
Proof.
  destruct (decide (a < length (vertex_cells h))) as [Ha|Ha].
  - rewrite (built_Ins Hbuilt a Ha). apply NoDup_positions.
  - unfold Ins. rewrite lookup_ge_None_2 by lia. constructor.
Qed.

Lemma NoDup_Outs a : NoDup (Outs h a).
Proof.
  destruct (decide (a < length (vertex_cells h))) as [Ha|Ha].
  - rewrite (built_Outs Hbuilt a Ha). apply NoDup_positions.
  - unfold Outs. rewrite lookup_ge_None_2 by lia. constructor.
Qed.

End edge_lists.

(** ** Duplicate identifiers *)

(** C10: the graph holds one vertex per distinct URN of the snapshot,
    and the vertex of a URN references the last record with that URN;
    no other vertex of the graph holds a record with it. *)
Theorem one_vertex_per_identifier sched snapshot opts dg h :
  makeDependencyGraph sched snapshot opts = Some (dg, h) →
  size (vertices dg) = length (remove_dups (ID <$> Resources snapshot)) ∧
  ∀ u, u ∈ ID <$> Resources snapshot →
    ∃ a v, vertices dg !! u = Some a ∧ vertex_cells h !! a = Some v ∧
           Resources snapshot !! a = Some (vresource v) ∧ ID (vresource v) = u ∧
           (∀ j r, a < j → Resources snapshot !! j = Some r → ID r ≠ u) ∧
           (∀ u' a' v', vertices dg !! u' = Some a' → vertex_cells h !! a' = Some v' →
                        ID (vresource v') = u → a' = a).
Proof.
  intros [Hbuilt _]%makeDependencyGraph_built. split; [by apply (built_size Hbuilt)|].
  intros u [a Ha]%(built_is_vertex Hbuilt).
  destruct (built_vertex Hbuilt u a Ha) as (v & Hv & Hr & Hid & _).
  exists a, v. repeat (split; [done|]). split.
  - destruct Hbuilt as (Hmap & _). apply Hmap in Ha as [_ Hlast].
    intros j r Hj Hjr Hu. apply (Hlast j Hj). by rewrite list_lookup_fmap, Hjr, <- Hu.
  - intros u' a' v' Hu' Hv' Hid'.
    destruct (built_vertex Hbuilt u' a' Hu') as (v'' & Hv'' & _ & Hid'' & _).
    assert (u' = u) as -> by congruence. congruence.
Qed.

Lemma one_vertex_per_identifier_witness :
  makeDependencyGraph listed_order snapABA default_options =
    Some (graphABA.1, graphABA.2) ∧
  size (vertices graphABA.1) = 2 ∧ length (Resources snapABA) = 3.
Proof.
  assert (makeDependencyGraph listed_order snapABA default_options =
          Some (graphABA.1, graphABA.2)) as Hrun by (vm_compute; reflexivity).
  split; [exact Hrun|]. split; [|reflexivity].
  rewrite (proj1 (one_vertex_per_identifier listed_order snapABA default_options
                    graphABA.1 graphABA.2 Hrun)).
  vm_compute. reflexivity.
Defined.

Example build_ABA :
  (λ p, (map_to_list (vertices p.1), vresource <$> vertex_cells p.2, edge_cells p.2)) graphABA =
  ([("A", 2); ("B", 1)], [resA; resB; resA'],
   [parentEdge (Some 1) (Some 2) "#AA6639";
    dependencyEdge (Some 1) (Some 2) ["input"] "#246C60"]).
Proof. vm_compute. reflexivity. Qed.

(** ** When the builder returns *)

Lemma all_resolve_intro opts dg rs order :
  (ignoreDependencyEdges opts = false →
   ∀ r dep, r ∈ rs → dep ∈ Dependencies r → is_Some (vertices dg !! dep)) →
  all_resolve opts dg rs order.
Proof.
  intros Hres. apply Forall_forall. intros entry _.
  destruct (rs !! entry.2) as [r|] eqn:Hr; [|done]. simpl.
  destruct (ignoreDependencyEdges opts) eqn:Hi; [by left|]. right.
  apply Forall_forall. intros dep Hdep. apply (Hres eq_refl r); [|done].
  by eapply list_elem_of_lookup_2.
Qed.

(** The builder returns a graph when every listed dependency names a
    record of the snapshot, and always when dependency edges are ignored. *)
Lemma makeDependencyGraph_returns sched snapshot opts :
  (ignoreDependencyEdges opts = false →
   ∀ r dep, r ∈ Resources snapshot → dep ∈ Dependencies r →
            dep ∈ ID <$> Resources snapshot) →
  ∃ dg h, makeDependencyGraph sched snapshot opts = Some (dg, h) ∧
          built sched snapshot opts dg h.
Proof.
  intros Hres.
  destruct (makeDependencyGraph_spec sched snapshot opts) as [Hsome _].
  destruct Hsome as (h & Hrun & Hb); [|by eauto].
  apply all_resolve_intro. intros Hi r dep Hr Hdep.
  destruct (allocate_vertices_spec opts (Resources snapshot)) as (_ & _ & _ & Hdom).
  apply elem_of_dom. rewrite Hdom, elem_of_list_to_set. by eapply Hres.
Qed.

(** ** Snapshots without references *)



(** ** Ignored edge kinds *)

(** C5: with [ignoreDependencyEdges] the builder returns a graph
    without any dependency edge: none in the edge store, every incoming
    list empty, every outgoing entry a parent edge.  With
    [ignoreParentEdges] a graph it returns has no parent edge: none in
    the edge store, every entry of an edge list a dependency edge. *)
Theorem ignored_edges_absent sched snapshot opts :
  (ignoreDependencyEdges opts = true →
   ∃ dg h, makeDependencyGraph sched snapshot opts = Some (dg, h) ∧
           filter (λ e, is_dependencyEdge e) (edge_cells h) = [] ∧
           (∀ a, Ins h a = []) ∧
           (∀ a i, i ∈ Outs h a →
                   ∃ e, edge_cells h !! i = Some e ∧ is_parentEdge e = true)) ∧
  (ignoreParentEdges opts = true →
   ∀ dg h, makeDependencyGraph sched snapshot opts = Some (dg, h) →
           filter (λ e, is_parentEdge e) (edge_cells h) = [] ∧
           (∀ a i, i ∈ Ins h a ∨ i ∈ Outs h a →
                   ∃ e, edge_cells h !! i = Some e ∧ is_dependencyEdge e = true)).
Proof.
  split.
  - intros Hi.
    destruct (makeDependencyGraph_returns sched snapshot opts)
      as (dg & h & Hrun & Hbuilt); [congruence|].
    assert (∀ e, e ∈ edge_cells h → is_dependencyEdge e = false) as Hnone.
    { intros e (u & a & r & _ & _ & [He|He]%elem_of_app)%(elem_of_built_edges Hbuilt).
      - unfold dependency_edges_of in He. rewrite Hi in He. by apply elem_of_nil in He.
      - by apply parent_edge_color in He as (-> & _). }
    exists dg, h. split; [done|]. split; [|split].
    + apply filter_none. intros e He%Hnone. rewrite He; simpl; tauto.
    + intros a. destruct (Ins h a) as [|i l] eqn:Heq; [done|].
      assert (i ∈ Ins h a) as (_ & e & He & Hd)%(elem_of_Ins Hbuilt)
        by (rewrite Heq; left).
      apply list_elem_of_lookup_2, Hnone in He.
      unfold dependency_into in Hd. by rewrite He in Hd.
    + intros a i (_ & e & He & _)%(elem_of_Outs Hbuilt). exists e. split; [done|].
      apply list_elem_of_lookup_2, Hnone in He. unfold is_parentEdge. by rewrite He.
  - intros Hi dg h [Hbuilt _]%makeDependencyGraph_built.
    assert (∀ e, e ∈ edge_cells h → is_dependencyEdge e = true) as Hall.
    { intros e (u & a & r & _ & _ & [He|He]%elem_of_app)%(elem_of_built_edges Hbuilt).
      - by apply dependency_edge_color in He as (? & _).
      - apply parent_edge_color in He as (_ & ? & _). congruence. }
    split.
    + apply filter_none. intros e He%Hall. unfold is_parentEdge. rewrite He; simpl; tauto.
    + intros a i [(_ & e & He & _)%(elem_of_Ins Hbuilt)|(_ & e & He & _)%(elem_of_Outs Hbuilt)];
        exists e; split; try done; by eapply Hall, list_elem_of_lookup_2.
Qed.

Lemma ignored_edges_absent_witness :
  (ignoreDependencyEdges without_dependency_edges = true ∧
   ∃ dg h, makeDependencyGraph listed_order snapABC without_dependency_edges =
             Some (dg, h) ∧
           filter (λ e, is_dependencyEdge e) (edge_cells h) = [] ∧
           (∀ a, Ins h a = []) ∧
           (∀ a i, i ∈ Outs h a →
                   ∃ e, edge_cells h !! i = Some e ∧ is_parentEdge e = true)) ∧
  (ignoreParentEdges without_parent_edges = true ∧
   makeDependencyGraph listed_order snapABC without_parent_edges =
     Some (graphABC_without_parents.1, graphABC_without_parents.2) ∧
   filter (λ e, is_parentEdge e) (edge_cells graphABC_without_parents.2) = []).
Proof.
  assert (makeDependencyGraph listed_order snapABC without_parent_edges =
          Some (graphABC_without_parents.1, graphABC_without_parents.2)) as Hrun
    by (vm_compute; reflexivity).
  split; (split; [reflexivity|]).
  - exact (proj1 (ignored_edges_absent listed_order snapABC without_dependency_edges)
             eq_refl).
  - split; [exact Hrun|].
    exact (proj1 (proj2 (ignored_edges_absent listed_order snapABC without_parent_edges)
                    eq_refl _ _ Hrun)).
Defined.

Example build_ABC_without_dependencies :
  snd <$> makeDependencyGraph listed_order snapABC without_dependency_edges =
  Some (mkHeap [mkVertex resA [] [] false; mkVertex resB [] [] false;
                mkVertex resC [] [0] false]
               [parentEdge (Some 1) (Some 2) "#AA6639"]).
Proof. vm_compute. reflexivity. Qed.

(** ** The edges of one vertex *)

Lemma dependency_between_spec a b e :
  dependency_between a b e = true ↔
  ∃ labels color, e = dependencyEdge (Some a) (Some b) labels color.
Proof.
  unfold dependency_between, dependency_into, leaving. split.
  - destruct e as [to from labels color|]; simpl; [|done].
    rewrite !andb_true_iff, !bool_decide_eq_true. intros [-> ->]. eauto.
  - intros (labels & color & ->). simpl. by rewrite !bool_decide_true.
Qed.

Section vertex_edges.

Context {sched : schedule} {snapshot : Snapshot} {opts : graphCommandOptions}.
Context {dg : dependencyGraph} {h : heap}.
Hypothesis Hbuilt : built sched snapshot opts dg h.

(** The dependency edges from the vertex of [D] to the vertex in cell
    [a]: one per occurrence of [D] in the dependencies of its record. *)
Lemma dependency_edges_between u a v D b :
  vertices dg !! u = Some a → vertex_cells h !! a = Some v →
  vertices dg !! D = Some b →
  filter (λ e, dependency_between a b e) (edge_cells h) =
  if ignoreDependencyEdges opts then []
  else (λ _, dependencyEdge (Some a) (Some b)
               (blame_of (make_depBlame (range_properties sched a
                            (map_to_list (PropertyDependencies (vresource v))))) D)
               (dependencyEdgeColor opts))
       <$> filter (λ d, d = D) (Dependencies (vresource v)).
Proof.
  intros Hu Hv HD.
  rewrite (filter_owned Hbuilt (dependency_between a b) u a (vresource v) Hu
             (built_record Hbuilt a v Hv)).
  - rewrite filter_app.
    rewrite (filter_none _ (parent_edges_of opts dg a (vresource v))), app_nil_r.
    + unfold dependency_edges_of. destruct (ignoreDependencyEdges opts); [done|].
      induction (Dependencies (vresource v)) as [|dep deps IH]; [done|].
      rewrite fmap_cons, !filter_cons, IH.
      destruct (decide (dep = D)) as [->|Hne].
      * rewrite decide_True; [by rewrite fmap_cons, HD|].
        apply Is_true_true, dependency_between_spec. rewrite HD. eauto.
      * rewrite decide_False; [done|].
        intros (labels & color & [= Hdep _ _])%Is_true_true%dependency_between_spec.
        apply Hne. by eapply (built_inj Hbuilt).
    + intros e (-> & _)%parent_edge_color. simpl. tauto.
  - by intros e (labels & color & ->)%dependency_between_spec.
Qed.

(** The parent edges leaving the vertex in cell [a]. *)
Lemma parent_edges_from u a v :
  vertices dg !! u = Some a → vertex_cells h !! a = Some v →
  filter (λ e, parent_of_child a e) (edge_cells h) =
  parent_edges_of opts dg a (vresource v).
Proof.
  intros Hu Hv.
  rewrite (filter_owned Hbuilt (parent_of_child a) u a (vresource v) Hu
             (built_record Hbuilt a v Hv)).
  - rewrite filter_app.
    rewrite (filter_none _ (dependency_edges_of sched opts dg a (vresource v))); simpl.
    + unfold parent_edges_of. destruct (ignoreParentEdges opts); [done|].
      case_decide; [done|]. rewrite filter_cons_True; [done|].
      unfold parent_of_child, leaving; simpl. by rewrite bool_decide_true.
    + intros e (He & _)%dependency_edge_color.
      unfold parent_of_child, is_parentEdge. rewrite He. simpl. tauto.
  - intros e. unfold parent_of_child, leaving, is_parentEdge.
    destruct e; simpl; [done|]. by intros ?%bool_decide_eq_true.
Qed.

Lemma positions_filter (P : Edge → bool) (l : list Edge) (i : nat) e :
  l !! i = Some e → P e = true → e ∈ filter (λ e, P e) l.
Proof.
  intros Hl HP. apply list_elem_of_filter. split.
  - by apply Is_true_true.
  - by eapply list_elem_of_lookup_2.
Qed.

End vertex_edges.

(** In a returned graph every dependency the second loop looked up
    was found. *)
Lemma resolved_dependency sched snapshot opts dg h u a v dep :
  makeDependencyGraph sched snapshot opts = Some (dg, h) →
  ignoreDependencyEdges opts = false →
  vertices dg !! u = Some a → vertex_cells h !! a = Some v →
  dep ∈ Dependencies (vresource v) → is_Some (vertices dg !! dep).
Proof.
  intros [Hbuilt Hall]%makeDependencyGraph_built Hi Hu Hv Hdep.
  unfold all_resolve in Hall. rewrite Forall_forall in Hall.
  specialize (Hall (u, a)). simpl in Hall.
  rewrite (built_record Hbuilt a v Hv) in Hall. simpl in Hall.
  destruct Hall as [Hall|Hall]; [by apply elem_of_order|congruence|].
  rewrite Forall_forall in Hall. by apply Hall.
Qed.

(** ** Parent edges *)

Lemma parent_edge_of_child sched snapshot opts dg h u a v :
  built sched snapshot opts dg h →
  ignoreParentEdges opts = false →
  vertices dg !! u = Some a → vertex_cells h !! a = Some v →
  Parent (vresource v) ≠ EmptyString →
  ∃ i, positions (parent_of_child a) (edge_cells h) = [i] ∧
       edge_cells h !! i =
         Some (parentEdge (vertices dg !! Parent (vresource v)) (Some a)
                          (parentEdgeColor opts)) ∧
       i ∈ Outs h a ∧ NoDup (Outs h a) ∧
       (∀ b, b ≠ a → i ∉ Outs h b) ∧
       (∀ b, i ∉ Ins h b).
Proof.
  intros Hbuilt Hi Hu Hv Hp.
  pose proof (parent_edges_from Hbuilt u a v Hu Hv) as Hf.
  unfold parent_edges_of in Hf. rewrite Hi, decide_False in Hf by done.
  pose proof (length_positions (parent_of_child a) (edge_cells h)) as Hlen.
  rewrite Hf in Hlen; simpl in Hlen.
  destruct (positions (parent_of_child a) (edge_cells h)) as [|i [|? ?]] eqn:Hpos;
    try done.
  assert (i ∈ positions (parent_of_child a) (edge_cells h)) as (e & Hie & HPe)%elem_of_positions
    by (rewrite Hpos; left).
  pose proof (positions_filter (parent_of_child a) _ i e Hie HPe) as Hin.
  rewrite Hf in Hin. apply list_elem_of_singleton in Hin as ->.
  exists i. split; [done|]. split; [done|]. split; [|split; [|split]].
  - apply (elem_of_Outs Hbuilt). split; [by eapply lookup_lt_Some|].
    eexists. split; [done|]. unfold leaving; simpl. by rewrite bool_decide_true.
  - by apply (NoDup_Outs Hbuilt).
  - intros b Hb (_ & e & He & Hl)%(elem_of_Outs Hbuilt).
    rewrite Hie in He. injection He as <-.
    unfold leaving in Hl; simpl in Hl. apply bool_decide_eq_true in Hl. congruence.
  - intros b (_ & e & He & Hd)%(elem_of_Ins Hbuilt).
    rewrite Hie in He. injection He as <-. done.
Qed.

(** C4: for a vertex whose record has a non-empty parent, with parent
    edges not ignored, the graph holds exactly one parent edge whose
    [from] is that vertex; its [to] is the map entry of the parent URN;
    it is in the outgoing list of the child, in no other outgoing list
    and in no incoming list. *)
Theorem parent_edge_on_child_only sched snapshot opts dg h u a v :
  makeDependencyGraph sched snapshot opts = Some (dg, h) →
  ignoreParentEdges opts = false →
  vertices dg !! u = Some a → vertex_cells h !! a = Some v →
  Parent (vresource v) ≠ EmptyString →
  ∃ i, positions (parent_of_child a) (edge_cells h) = [i] ∧
       edge_cells h !! i =
         Some (parentEdge (vertices dg !! Parent (vresource v)) (Some a)
                          (parentEdgeColor opts)) ∧
       i ∈ Outs h a ∧ NoDup (Outs h a) ∧
       (∀ b, b ≠ a → i ∉ Outs h b) ∧
       (∀ b, i ∉ Ins h b).
Proof.
  intros [Hbuilt _]%makeDependencyGraph_built.
  by apply (parent_edge_of_child sched snapshot).
Qed.

Lemma parent_edge_on_child_only_witness :
  makeDependencyGraph listed_order snapABC default_options =
    Some (graphABC.1, graphABC.2) ∧
  ∃ i, positions (parent_of_child 2) (edge_cells graphABC.2) = [i] ∧
       edge_cells graphABC.2 !! i = Some (parentEdge (Some 1) (Some 2) "#AA6639") ∧
       i ∈ Outs graphABC.2 2 ∧ NoDup (Outs graphABC.2 2) ∧
       (∀ b, b ≠ 2 → i ∉ Outs graphABC.2 b) ∧
       (∀ b, i ∉ Ins graphABC.2 b).
Proof.
  split; [exact graphABC_built|].
  apply (parent_edge_on_child_only listed_order snapABC default_options
           graphABC.1 graphABC.2 "C" 2 (mkVertex resC [] [0] false) graphABC_built).
  - reflexivity.
  - vm_compute. reflexivity.
  - vm_compute. reflexivity.
  - simpl. discriminate.
Defined.

(** ** Blame labels *)

(** C3: in a built graph, take a vertex [a] with record R and an
    identifier D.  Every dependency edge from the vertex of D to [a]
    carries exactly the names of the properties of R whose dependency
    list contains D, so it carries P whenever P depends on D, and both
    names when two properties do.  Such an edge exists, in the incoming
    list of [a], when R lists D as a dependency and dependency edges
    are not ignored. *)
Theorem blame_labels_on_edge sched snapshot opts dg h u a v D :
  makeDependencyGraph sched snapshot opts = Some (dg, h) →
  vertices dg !! u = Some a → vertex_cells h !! a = Some v →
  (∀ b i e, vertices dg !! D = Some b →
     edge_cells h !! i = Some e → dependency_between a b e = true →
     ∀ P, P ∈ Labels e ↔
          ∃ deps, PropertyDependencies (vresource v) !! P = Some deps ∧ D ∈ deps) ∧
  (∀ b i e P1 P2 deps1 deps2, vertices dg !! D = Some b →
     edge_cells h !! i = Some e → dependency_between a b e = true →
     PropertyDependencies (vresource v) !! P1 = Some deps1 → D ∈ deps1 →
     PropertyDependencies (vresource v) !! P2 = Some deps2 → D ∈ deps2 →
     P1 ∈ Labels e ∧ P2 ∈ Labels e) ∧
  (ignoreDependencyEdges opts = false → D ∈ Dependencies (vresource v) →
   ∃ b i e, vertices dg !! D = Some b ∧ i ∈ Ins h a ∧
            edge_cells h !! i = Some e ∧ dependency_between a b e = true).
Proof.
  intros Hrun Hu Hv.
  pose proof (makeDependencyGraph_built _ _ _ _ _ Hrun) as [Hbuilt _].
  assert (∀ b i e, vertices dg !! D = Some b →
            edge_cells h !! i = Some e → dependency_between a b e = true →
            ∀ P, P ∈ Labels e ↔
                 ∃ deps, PropertyDependencies (vresource v) !! P = Some deps ∧ D ∈ deps)
    as Hlabels.
  { intros b i e HD Hie HPe P.
    pose proof (dependency_edges_between Hbuilt u a v D b Hu Hv HD) as Hf.
    pose proof (positions_filter (dependency_between a b) _ i e Hie HPe) as Hin.
    rewrite Hf in Hin. destruct (ignoreDependencyEdges opts); [by apply elem_of_nil in Hin|].
    apply list_elem_of_fmap in Hin as (? & -> & _). simpl. apply blame_labels. }
  split; [done|]. split.
  - intros b i e P1 P2 deps1 deps2 HD Hie HPe H1 HD1 H2 HD2. split.
    + apply (Hlabels b i e HD Hie HPe). eauto.
    + apply (Hlabels b i e HD Hie HPe). eauto.
  - intros Hi Hdep.
    destruct (resolved_dependency _ _ _ _ _ u a v D Hrun Hi Hu Hv Hdep) as [b HD].
    assert (dependencyEdge (Some a) (Some b)
              (blame_of (make_depBlame (range_properties sched a
                           (map_to_list (PropertyDependencies (vresource v))))) D)
              (dependencyEdgeColor opts) ∈ edge_cells h) as [i Hie]%list_elem_of_lookup_1.
    { apply (elem_of_built_edges Hbuilt). exists u, a, (vresource v).
      split; [done|]. split; [by apply (built_record Hbuilt)|].
      apply elem_of_app. left. unfold dependency_edges_of. rewrite Hi.
      apply list_elem_of_fmap. exists D. by rewrite HD. }
    exists b, i. eexists. split; [done|]. split; [|split; [done|]].
    + apply (elem_of_Ins Hbuilt). split; [by eapply lookup_lt_Some|].
      eexists. split; [done|]. unfold dependency_into; simpl. by rewrite bool_decide_true.
    + apply dependency_between_spec. eauto.
Qed.

Lemma blame_labels_on_edge_witness :
  makeDependencyGraph listed_order snapAB3 default_options =
    Some (graphAB3.1, graphAB3.2) ∧
  "input" ∈ Labels (dependencyEdge (Some 1) (Some 0) ["size"; "input"] "#246C60") ∧
  "size" ∈ Labels (dependencyEdge (Some 1) (Some 0) ["size"; "input"] "#246C60").
Proof.
  assert (makeDependencyGraph listed_order snapAB3 default_options =
          Some (graphAB3.1, graphAB3.2)) as Hrun by (vm_compute; reflexivity).
  split; [exact Hrun|].
  apply (proj1 (proj2 (blame_labels_on_edge listed_order snapAB3 default_options
                         graphAB3.1 graphAB3.2 "B" 1 (mkVertex resB3 [0] [] false) "A"
                         Hrun eq_refl eq_refl))
           0 0 _ "input" "size" ["A"] ["A"]).
  - reflexivity.
  - vm_compute. reflexivity.
  - reflexivity.
  - vm_compute. reflexivity.
  - left.
  - vm_compute. reflexivity.
  - left.
Defined.

(** ** Dependency edges *)

Lemma last_record_NoDup rs a r :
  NoDup (ID <$> rs) → rs !! a = Some r → last_record rs (ID r) a.
Proof.
  intros Hnd Hr.
  assert ((ID <$> rs) !! a = Some (ID r)) as Ha by (by rewrite list_lookup_fmap, Hr).
  split; [done|]. intros j Hj Hju.
  pose proof (NoDup_lookup _ _ _ _ Hnd Ha Hju). lia.
Qed.

(** In the snapshot of the example that lists "A" twice, the premises
    of C2 hold and yet two dependency edges lead from the vertex of
    "A" to the vertex of "B". *)
Lemma two_edges_for_repeated_dependency :
  NoDup (ID <$> Resources snapAB2) ∧
  (∀ r dep, r ∈ Resources snapAB2 → dep ∈ Dependencies r →
            dep ∈ ID <$> Resources snapAB2) ∧
  resB2 ∈ Resources snapAB2 ∧ "A" ∈ Dependencies resB2 ∧
  ignoreDependencyEdges default_options = false ∧
  makeDependencyGraph listed_order snapAB2 default_options =
    Some (graphAB2.1, graphAB2.2) ∧
  vertices graphAB2.1 !! "B" = Some 1 ∧ vertices graphAB2.1 !! "A" = Some 0 ∧
  edge_cells graphAB2.2 =
    [dependencyEdge (Some 1) (Some 0) [] "#246C60";
     dependencyEdge (Some 1) (Some 0) [] "#246C60"] ∧
  positions (dependency_between 1 0) (edge_cells graphAB2.2) = [0; 1] ∧
  length (filter (λ e, dependency_between 1 0 e) (edge_cells graphAB2.2)) ≠ 1.
Proof.
  split; [apply (bool_decide_unpack _); vm_compute; exact I|].
  split.
  { intros r dep Hr Hdep. simpl in Hr.
    apply elem_of_cons in Hr as [->|Hr].
    - by apply elem_of_nil in Hdep.
    - apply list_elem_of_singleton in Hr as ->. simpl in *.
      apply elem_of_cons in Hdep as [->|Hdep]; [left|].
      apply list_elem_of_singleton in Hdep as ->. left. }
  split; [right; left|]. split; [left|]. split; [reflexivity|].
  split; [vm_compute; reflexivity|]. split; [vm_compute; reflexivity|].
  split; [vm_compute; reflexivity|]. split; [vm_compute; reflexivity|].
  split; [vm_compute; reflexivity|]. vm_compute. discriminate.
Qed.

(** C2, amended: for a snapshot with distinct URNs in which every
    listed dependency names a record, and dependency edges not ignored,
    the builder returns a graph in which, for every record R listing D,
    the dependency edges with [to] the vertex of R and [from] the
    vertex of D are as many as the occurrences of D in the dependencies
    of R (exactly one when D is listed once), and each of these edge
    objects is both in the incoming list of R and in the outgoing list
    of D, once in each. *)
Theorem dependency_edge_per_listing sched snapshot opts :
  NoDup (ID <$> Resources snapshot) →
  (∀ r dep, r ∈ Resources snapshot → dep ∈ Dependencies r →
            dep ∈ ID <$> Resources snapshot) →
  ignoreDependencyEdges opts = false →
  ∃ dg h, makeDependencyGraph sched snapshot opts = Some (dg, h) ∧
    ∀ R D, R ∈ Resources snapshot → D ∈ Dependencies R →
      ∃ a b, vertices dg !! ID R = Some a ∧ vertices dg !! D = Some b ∧
             (vresource <$> vertex_cells h !! a) = Some R ∧
             length (positions (dependency_between a b) (edge_cells h)) =
               length (filter (λ d, d = D) (Dependencies R)) ∧
             (length (filter (λ d, d = D) (Dependencies R)) = 1 →
              ∃ i, positions (dependency_between a b) (edge_cells h) = [i]) ∧
             (∀ i, i ∈ positions (dependency_between a b) (edge_cells h) →
                   i ∈ Ins h a ∧ i ∈ Outs h b) ∧
             NoDup (Ins h a) ∧ NoDup (Outs h b).
Proof.
  intros Hnd Hres Hi.
  destruct (makeDependencyGraph_returns sched snapshot opts)
    as (dg & h & Hrun & Hbuilt); [by intros _|].
  exists dg, h. split; [done|]. intros R D [a Ha]%list_elem_of_lookup_1 HD.
  assert (vertices dg !! ID R = Some a) as Hu.
  { destruct Hbuilt as (Hmap & _). apply Hmap. by apply last_record_NoDup. }
  destruct (built_vertex Hbuilt _ _ Hu) as (v & Hv & Hr & _).
  assert (vresource v = R) as HR by congruence.
  assert (is_Some (vertices dg !! D)) as [b Hb].
  { apply (built_is_vertex Hbuilt). eapply Hres; [|done]. by eapply list_elem_of_lookup_2. }
  pose proof (dependency_edges_between Hbuilt _ a v D b Hu Hv Hb) as Hf.
  rewrite Hi, HR in Hf.
  assert (length (positions (dependency_between a b) (edge_cells h)) =
          length (filter (λ d, d = D) (Dependencies R))) as Hlen
    by (by rewrite length_positions, Hf, length_fmap).
  exists a, b. split; [done|]. split; [done|]. split; [by rewrite Hv; simpl; f_equal|].
  split; [done|]. split; [|split; [|split]].
  - intros Hone. rewrite Hone in Hlen.
    destruct (positions (dependency_between a b) (edge_cells h)) as [|i [|? ?]];
      try done. by exists i.
  - intros i (e & Hie & (labels & color & ->)%dependency_between_spec)%elem_of_positions.
    split.
    + apply (elem_of_Ins Hbuilt). split; [by eapply lookup_lt_Some|].
      eexists. split; [done|]. unfold dependency_into; simpl. by rewrite bool_decide_true.
    + apply (elem_of_Outs Hbuilt). split.
      * destruct (built_vertex Hbuilt _ _ Hb) as (w & Hw & _). by eapply lookup_lt_Some.
      * eexists. split; [done|]. unfold leaving; simpl. by rewrite bool_decide_true.
  - by apply (NoDup_Ins Hbuilt).
  - by apply (NoDup_Outs Hbuilt).
Qed.

Lemma dependency_edge_per_listing_witness :
  NoDup (ID <$> Resources snapABC) ∧
  ignoreDependencyEdges default_options = false ∧
  ∃ dg h, makeDependencyGraph reversed_order snapABC default_options = Some (dg, h) ∧
    ∃ a b, vertices dg !! "B" = Some a ∧ vertices dg !! "A" = Some b ∧
           length (positions (dependency_between a b) (edge_cells h)) = 1.
Proof.
  assert (NoDup (ID <$> Resources snapABC)) as Hnd
    by (apply (bool_decide_unpack _); vm_compute; exact I).
  split; [exact Hnd|]. split; [reflexivity|].
  destruct (dependency_edge_per_listing reversed_order snapABC default_options Hnd)
    as (dg & h & Hrun & Hedges).
  - intros r dep Hr Hdep. simpl in Hr.
    apply elem_of_cons in Hr as [->|Hr]; [by apply elem_of_nil in Hdep|].
    apply elem_of_cons in Hr as [->|Hr].
    + apply list_elem_of_singleton in Hdep as ->. left.
    + apply list_elem_of_singleton in Hr as ->. by apply elem_of_nil in Hdep.
  - reflexivity.
  - exists dg, h. split; [exact Hrun|].
    destruct (Hedges resB "A") as (a & b & Ha & Hb & _ & Hlen & _).
    + right. left.
    + left.
    + exists a, b. split; [exact Ha|]. split; [exact Hb|]. exact Hlen.
Defined.

(** ** References without a vertex *)

(** The builder returns a graph when the records held by vertices, the
    last record of each URN, list only dependencies that name a record. *)
Lemma makeDependencyGraph_returns_held sched snapshot opts :
  (ignoreDependencyEdges opts = false →
   ∀ a r dep,
     Resources snapshot !! a = Some r →
     (∀ j r', a < j → Resources snapshot !! j = Some r' → ID r' ≠ ID r) →
     dep ∈ Dependencies r → dep ∈ ID <$> Resources snapshot) →
  ∃ dg h, makeDependencyGraph sched snapshot opts = Some (dg, h) ∧
          built sched snapshot opts dg h.
Proof.
  intros Hres.
  destruct (makeDependencyGraph_spec sched snapshot opts) as [Hsome _].
  destruct Hsome as (h & Hrun & Hb); [|by eauto].
  destruct (allocate_vertices_spec opts (Resources snapshot)) as (_ & _ & Hmap & Hdom).
  apply Forall_forall. intros [u a] Hin. simpl.
  rewrite (range_vertices_perm sched) in Hin.
  apply elem_of_map_to_list, Hmap in Hin as [Hu Hlast].
  rewrite list_lookup_fmap in Hu.
  destruct (Resources snapshot !! a) as [r|] eqn:Hr; [|done]. simpl in *.
  injection Hu as <-.
  destruct (ignoreDependencyEdges opts) eqn:Hi; [by left|]. right.
  apply Forall_forall. intros dep Hdep.
  apply elem_of_dom. rewrite Hdom, elem_of_list_to_set.
  apply (Hres eq_refl a r dep Hr); [|done].
  intros j r' Hj Hr' Hid. apply (Hlast j Hj).
  rewrite list_lookup_fmap, Hr'. simpl. by rewrite Hid.
Qed.

(** In the snapshot whose only record names a parent "X" that is not
    in the snapshot, the builder does not fail: it returns a graph with
    a parent edge whose [to] is nil. *)
Lemma missing_parent_is_not_reported :
  (Parent <$> Resources snap_orphan) = ["X"] ∧
  ("X" ∉ ID <$> Resources snap_orphan) ∧
  makeDependencyGraph listed_order snap_orphan default_options =
    Some (graph_orphan.1, graph_orphan.2) ∧
  vertices graph_orphan.1 !! "X" = None ∧
  edge_cells graph_orphan.2 = [parentEdge None (Some 0) "#AA6639"] ∧
  Outs graph_orphan.2 0 = [0].
Proof.
  split; [reflexivity|]. split.
  { intros Hin. simpl in Hin. by apply list_elem_of_singleton in Hin. }
  split; [vm_compute; reflexivity|]. split; [vm_compute; reflexivity|].
  split; vm_compute; reflexivity.
Qed.

(** C7, amended: with dependency edges not ignored, a dependency
    identifier without a vertex, listed by the record a vertex holds
    (the last record of its URN), makes the builder panic, and it
    panics for no other reason: it returns a graph whenever the
    records held by vertices list only dependencies that name a record,
    whatever records shadowed by a later one with the same URN list.
    Every dependency edge of a returned graph has both endpoints.  A
    parent identifier without a vertex does not stop the builder: the
    graph it returns has, in the outgoing list of the child, a parent
    edge whose [to] is nil. *)
Theorem missing_reference sched snapshot opts :
  (∀ a r dep,
     ignoreDependencyEdges opts = false →
     Resources snapshot !! a = Some r →
     (∀ j r', a < j → Resources snapshot !! j = Some r' → ID r' ≠ ID r) →
     dep ∈ Dependencies r → dep ∉ ID <$> Resources snapshot →
     makeDependencyGraph sched snapshot opts = None) ∧
  ((ignoreDependencyEdges opts = false →
    ∀ a r dep,
      Resources snapshot !! a = Some r →
      (∀ j r', a < j → Resources snapshot !! j = Some r' → ID r' ≠ ID r) →
      dep ∈ Dependencies r → dep ∈ ID <$> Resources snapshot) →
   is_Some (makeDependencyGraph sched snapshot opts)) ∧
  (∀ dg h e,
     makeDependencyGraph sched snapshot opts = Some (dg, h) →
     e ∈ edge_cells h → is_dependencyEdge e = true →
     ∃ a b, To e = Some a ∧ From e = Some b ∧
            a < length (vertex_cells h) ∧ b < length (vertex_cells h)) ∧
  (∀ dg h u a v,
     makeDependencyGraph sched snapshot opts = Some (dg, h) →
     ignoreParentEdges opts = false →
     vertices dg !! u = Some a → vertex_cells h !! a = Some v →
     Parent (vresource v) ≠ EmptyString → Parent (vresource v) ∉ ID <$> Resources snapshot →
     ∃ i, i ∈ Outs h a ∧
          edge_cells h !! i = Some (parentEdge None (Some a) (parentEdgeColor opts))).
Proof.
  split; [|split; [|split]].
  - intros a r dep Hi Hr Hlast Hdep Hmiss.
    destruct (makeDependencyGraph_spec sched snapshot opts) as [_ Hnone].
    apply Hnone. intros Hall.
    destruct (allocate_vertices_spec opts (Resources snapshot)) as (_ & _ & Hmap & Hdom).
    assert (vertices (allocate_vertices opts (Resources snapshot)).1 !! ID r = Some a) as Hu.
    { apply Hmap. split; [by rewrite list_lookup_fmap, Hr|].
      intros j Hj Hju. rewrite list_lookup_fmap in Hju.
      destruct (Resources snapshot !! j) as [r'|] eqn:Hr'; [|done].
      apply (Hlast j r' Hj Hr'). by injection Hju. }
    unfold all_resolve in Hall. rewrite Forall_forall in Hall.
    specialize (Hall (ID r, a)). simpl in Hall. rewrite Hr in Hall. simpl in Hall.
    destruct Hall as [Hall|Hall].
    + by rewrite (range_vertices_perm sched), elem_of_map_to_list.
    + congruence.
    + rewrite Forall_forall in Hall. apply Hall in Hdep.
      apply elem_of_dom in Hdep. rewrite Hdom, elem_of_list_to_set in Hdep. done.
  - intros Hres.
    destruct (makeDependencyGraph_returns_held sched snapshot opts Hres)
      as (dg & h & -> & _).
    by eexists.
  - intros dg h e Hrun.
    pose proof (makeDependencyGraph_built _ _ _ _ _ Hrun) as [Hbuilt _].
    intros (u & a & r & Hu & Hr & [He|He]%elem_of_app)%(elem_of_built_edges Hbuilt) Hdep.
    + unfold dependency_edges_of in He.
      destruct (ignoreDependencyEdges opts) eqn:Hi; [by apply elem_of_nil in He|].
      apply list_elem_of_fmap in He as (dep & -> & Hin).
      destruct (built_vertex Hbuilt _ _ Hu) as (v & Hv & Hrv & _).
      assert (vresource v = r) as Hvr by congruence.
      destruct (resolved_dependency _ _ _ _ _ u a v dep Hrun Hi Hu Hv) as [b Hb];
        [by rewrite Hvr|].
      exists a, b. simpl. split; [done|]. split; [done|].
      destruct (built_vertex Hbuilt _ _ Hb) as (? & ?%lookup_lt_Some & _).
      apply lookup_lt_Some in Hv. done.
    + apply parent_edge_color in He as (-> & _). done.
  - intros dg h u a v Hrun Hi Hu Hv Hp Hmiss.
    apply makeDependencyGraph_built in Hrun as [Hbuilt _].
    destruct (parent_edge_of_child sched snapshot opts dg h u a v Hbuilt Hi Hu Hv Hp)
      as (i & _ & Hie & Hout & _).
    exists i. split; [done|]. rewrite Hie. do 2 f_equal.
    destruct (vertices dg !! Parent (vresource v)) eqn:Hx; [|done].
    destruct Hmiss. apply (built_is_vertex Hbuilt). by eexists.
Qed.

Lemma missing_reference_witness :
  (ignoreDependencyEdges default_options = false ∧
   ("X" ∉ ID <$> Resources snap_dangling) ∧
   makeDependencyGraph listed_order snap_dangling default_options = None) ∧
  is_Some (makeDependencyGraph listed_order snapABC default_options) ∧
  (("X" ∉ ID <$> Resources snap_shadowed) ∧
   is_Some (makeDependencyGraph listed_order snap_shadowed default_options)) ∧
  (makeDependencyGraph listed_order snap_orphan default_options =
     Some (graph_orphan.1, graph_orphan.2) ∧
   ("X" ∉ ID <$> Resources snap_orphan) ∧
   ∃ i, i ∈ Outs graph_orphan.2 0 ∧
        edge_cells graph_orphan.2 !! i = Some (parentEdge None (Some 0) "#AA6639")).
Proof.
  assert ("X" ∉ ID <$> Resources snap_dangling) as Hmiss.
  { intros Hin. simpl in Hin. by apply list_elem_of_singleton in Hin. }
  assert ("X" ∉ ID <$> Resources snap_orphan) as Hmiss'.
  { intros Hin. simpl in Hin. by apply list_elem_of_singleton in Hin. }
  assert ("X" ∉ ID <$> Resources snap_shadowed) as Hmiss''.
  { intros Hin. simpl in Hin.
    apply elem_of_cons in Hin as [?|Hin]; [done|]. by apply list_elem_of_singleton in Hin. }
  assert (makeDependencyGraph listed_order snap_orphan default_options =
          Some (graph_orphan.1, graph_orphan.2)) as Hrun by (vm_compute; reflexivity).
  split; [split; [reflexivity|split; [exact Hmiss|]]|split; [|split]].
  - apply (proj1 (missing_reference listed_order snap_dangling default_options)
             0 (mkState "B" ["X"] ∅ EmptyString) "X").
    + reflexivity.
    + reflexivity.
    + intros j r' Hj Hr'. destruct j as [|[|j]]; [lia|done|done].
    + left.
    + exact Hmiss.
  - apply (proj1 (proj2 (missing_reference listed_order snapABC default_options))).
    intros _ a r dep Hr%list_elem_of_lookup_2 _ Hdep. simpl in Hr.
    apply elem_of_cons in Hr as [->|Hr]; [by apply elem_of_nil in Hdep|].
    apply elem_of_cons in Hr as [->|Hr].
    + apply list_elem_of_singleton in Hdep as ->. left.
    + apply list_elem_of_singleton in Hr as ->. by apply elem_of_nil in Hdep.
  - split; [exact Hmiss''|].
    apply (proj1 (proj2 (missing_reference listed_order snap_shadowed default_options))).
    intros _ a r dep Hr Hlast Hdep.
    destruct a as [|[|a]]; simpl in Hr; simplify_eq.
    + by destruct (Hlast 1 (mkState "B" [] ∅ EmptyString) ltac:(lia) eq_refl).
    + by apply elem_of_nil in Hdep.
  - split; [exact Hrun|]. split; [exact Hmiss'|].
    apply (proj2 (proj2 (proj2 (missing_reference listed_order snap_orphan default_options)))
             graph_orphan.1 graph_orphan.2 "C" 0
             (mkVertex (mkState "C" [] ∅ "X") [] [0] false) Hrun).
    + reflexivity.
    + reflexivity.
    + vm_compute. reflexivity.
    + simpl. discriminate.
    + exact Hmiss'.
Defined.

(** ** The command *)

(** C8: when the selected stack has no snapshot, [RunE] returns the
    error "unable to find snapshot for stack %q" formatted with the
    stack name of the options, and has done nothing before:
    [makeDependencyGraph] was not called, no file was created, nothing
    was written. *)
Theorem missing_snapshot_short_circuits env sched cmdOpts args s :
  RequireStack env (stackName cmdOpts) = inr s →
  Stack_Snapshot env s = inr None →
  RunE env sched cmdOpts args =
  ([], returned (Some (Errorf "unable to find snapshot for stack %q"
                              [stackName cmdOpts]))).
Proof. intros Hs Hsnap. unfold RunE. by rewrite Hs, Hsnap. Qed.

Lemma missing_snapshot_short_circuits_witness :
  RequireStack uninitialized_stack (stackName options_for_dev) = inr "dev" ∧
  Stack_Snapshot uninitialized_stack "dev" = inr None ∧
  RunE uninitialized_stack listed_order options_for_dev ["graph.dot"] =
  ([], returned (Some (Errorf "unable to find snapshot for stack %q" ["dev"]))).
Proof.
  split; [reflexivity|]. split; [reflexivity|].
  exact (missing_snapshot_short_circuits uninitialized_stack listed_order options_for_dev
           ["graph.dot"] "dev" eq_refl eq_refl).
Defined.

Example RunE_deployed_stack :
  RunE deployed_stack listed_order options_for_dev ["graph.dot"] =
  ([called_makeDependencyGraph; called_os_Create "graph.dot"; called_dotconv_Print EmptyString;
    called_Printf "%sWrote stack dependency graph to `%s`" ["🔍 "; "graph.dot"];
    called_Println; called_file_Close],
   returned None).
Proof. vm_compute. reflexivity. Qed.

(** ** The blame map, with multiplicities *)

Lemma blame_property_formula deps : ∀ m k d,
  blame_of (blame_property m (k, deps)) d =
  blame_of m d ++ replicate (occurrences d deps) k.
Proof.
  unfold blame_property, occurrences; simpl.
  induction deps as [|x deps IH]; intros m k d; simpl.
  - by rewrite app_nil_r.
  - rewrite IH, blame_of_insert, filter_cons.
    destruct (decide (x = d)) as [->|Hne].
    + by rewrite <- app_assoc.
    + done.
Qed.

Lemma foldl_blame_formula entries : ∀ m d,
  blame_of (foldl blame_property m entries) d =
  blame_of m d ++
  mjoin ((λ entry : PropertyKey * list URN, replicate (occurrences d entry.2) entry.1)
           <$> entries).
Proof.
  induction entries as [|[k deps] entries IH]; intros m d; simpl.
  - by rewrite app_nil_r.
  - by rewrite IH, blame_property_formula, <- app_assoc.
Qed.

Lemma make_depBlame_formula entries d :
  blame_of (make_depBlame entries) d =
  mjoin ((λ entry : PropertyKey * list URN, replicate (occurrences d entry.2) entry.1)
           <$> entries).
Proof.
  unfold make_depBlame. rewrite foldl_blame_formula. unfold blame_of at 1.
  by rewrite lookup_empty.
Qed.

Lemma make_depBlame_Permutation entries1 entries2 d :
  entries1 ≡ₚ entries2 →
  blame_of (make_depBlame entries1) d ≡ₚ blame_of (make_depBlame entries2) d.
Proof. intros Hp. rewrite !make_depBlame_formula. by rewrite Hp. Qed.

(** ** Independence of the iteration order *)

Lemma same_edge_refl e : same_edge e e.
Proof. by repeat split. Qed.

Lemma same_edge_edges_of s1 s2 opts dg rs entry :
  Forall2 same_edge (edges_of s1 opts dg rs entry) (edges_of s2 opts dg rs entry).
Proof.
  unfold edges_of. destruct (rs !! entry.2) as [r|]; [|constructor].
  apply Forall2_app.
  - unfold dependency_edges_of. destruct (ignoreDependencyEdges opts); [constructor|].
    apply Forall2_fmap, Forall_Forall2_diag, Forall_forall. intros dep _.
    repeat split; simpl. apply make_depBlame_Permutation.
    by rewrite !range_properties_perm.
  - apply Forall_Forall2_diag, Forall_forall. intros e _. apply same_edge_refl.
Qed.

Lemma same_edge_join s1 s2 opts dg rs order :
  Forall2 same_edge (mjoin (edges_of s1 opts dg rs <$> order))
                    (mjoin (edges_of s2 opts dg rs <$> order)).
Proof.
  apply Forall2_join, Forall2_fmap, Forall_Forall2_diag, Forall_forall.
  intros entry _. apply same_edge_edges_of.
Qed.

Lemma same_edge_filter (P : Edge → bool) l k :
  (∀ e1 e2, same_edge e1 e2 → P e1 = P e2) →
  Forall2 same_edge l k →
  length (filter (λ e, P e) l) = length (filter (λ e, P e) k).
Proof.
  intros HP. induction 1 as [|e1 e2 l k He _ IH]; [done|].
  rewrite !filter_cons, (HP e1 e2 He). destruct (P e2); simpl; by rewrite IH.
Qed.

Lemma same_edge_dependency_into a e1 e2 :
  same_edge e1 e2 → dependency_into a e1 = dependency_into a e2.
Proof. intros (Hk & Ht & _). unfold dependency_into. by rewrite Hk, Ht. Qed.

Lemma same_edge_leaving a e1 e2 :
  same_edge e1 e2 → leaving a e1 = leaving a e2.
Proof. intros (_ & _ & Hf & _). unfold leaving. by rewrite Hf. Qed.

Lemma length_Ins_filter sched snapshot opts dg h a :
  built sched snapshot opts dg h →
  length (Ins h a) =
  if decide (a < length (Resources snapshot))
  then length (filter (λ e, dependency_into a e) (edge_cells h)) else 0.
Proof.
  intros Hbuilt. rewrite <- (built_length Hbuilt). case_decide as Ha.
  - by rewrite (built_Ins Hbuilt a Ha), length_positions.
  - unfold Ins. by rewrite lookup_ge_None_2 by lia.
Qed.

Lemma length_Outs_filter sched snapshot opts dg h a :
  built sched snapshot opts dg h →
  length (Outs h a) =
  if decide (a < length (Resources snapshot))
  then length (filter (λ e, leaving a e) (edge_cells h)) else 0.
Proof.
  intros Hbuilt. rewrite <- (built_length Hbuilt). case_decide as Ha.
  - by rewrite (built_Outs Hbuilt a Ha), length_positions.
  - unfold Outs. by rewrite lookup_ge_None_2 by lia.
Qed.

Lemma length_filter_Permutation (P : Edge → bool) (l k : list Edge) :
  l ≡ₚ k → length (filter (λ e, P e) l) = length (filter (λ e, P e) k).
Proof. intros Hp. by rewrite Hp. Qed.

(** X1: the order in which the Go runtime ranges over [dg.vertices]
    and over the property maps does not change whether the builder
    panics, nor the vertex map, nor the records of the vertices; the
    edge stores of two runs hold the same edges up to the order of the
    edges and of the labels of each edge, and every vertex has the same
    in-degree and out-degree in both. *)
Theorem iteration_order_irrelevant s1 s2 snapshot opts :
  (makeDependencyGraph s1 snapshot opts = None ↔
   makeDependencyGraph s2 snapshot opts = None) ∧
  ∀ dg1 h1 dg2 h2,
    makeDependencyGraph s1 snapshot opts = Some (dg1, h1) →
    makeDependencyGraph s2 snapshot opts = Some (dg2, h2) →
    dg1 = dg2 ∧ static h1 = static h2 ∧
    (∃ l, edge_cells h1 ≡ₚ l ∧ Forall2 same_edge l (edge_cells h2)) ∧
    ∀ a, length (Ins h1 a) = length (Ins h2 a) ∧ length (Outs h1 a) = length (Outs h2 a).
Proof.
  destruct (makeDependencyGraph_spec s1 snapshot opts) as [Hsome1 Hnone1].
  destruct (makeDependencyGraph_spec s2 snapshot opts) as [Hsome2 Hnone2].
  set (dg := (allocate_vertices opts (Resources snapshot)).1) in *.
  assert (range_vertices s1 (map_to_list (vertices dg)) ≡ₚ
          range_vertices s2 (map_to_list (vertices dg))) as Hperm
    by (by rewrite !range_vertices_perm).
  assert (all_resolve opts dg (Resources snapshot)
            (range_vertices s1 (map_to_list (vertices dg))) ↔
          all_resolve opts dg (Resources snapshot)
            (range_vertices s2 (map_to_list (vertices dg)))) as Hall.
  { unfold all_resolve. by rewrite Hperm. }
  split.
  - split; intros Hrun.
    + apply Hnone2. intros H2%Hall. destruct (Hsome1 H2) as (h & Hrun' & _). congruence.
    + apply Hnone1. intros H1%Hall. destruct (Hsome2 H1) as (h & Hrun' & _). congruence.
  - intros dg1 h1 dg2 h2 Hrun1 Hrun2.
    destruct (decide (all_resolve opts dg (Resources snapshot)
                        (range_vertices s1 (map_to_list (vertices dg))))) as [H1|H1];
      [|rewrite (Hnone1 H1) in Hrun1; done].
    destruct (Hsome1 H1) as (h1' & Hrun1' & Hb1).
    destruct (Hsome2 (proj1 Hall H1)) as (h2' & Hrun2' & Hb2).
    rewrite Hrun1 in Hrun1'. rewrite Hrun2 in Hrun2'. simplify_eq.
    split; [done|].
    pose proof Hb1 as (_ & _ & Hst1 & Hc1 & _).
    pose proof Hb2 as (_ & _ & Hst2 & Hc2 & _).
    split; [congruence|].
    assert (∃ l, edge_cells h1' ≡ₚ l ∧ Forall2 same_edge l (edge_cells h2'))
      as (l & Hl1 & Hl2).
    { exists (mjoin (edges_of s1 opts dg (Resources snapshot) <$>
                       range_vertices s2 (map_to_list (vertices dg)))).
      split.
      - rewrite Hc1. fold dg. by rewrite Hperm.
      - rewrite Hc2. apply same_edge_join. }
    split; [by exists l|]. intros a.
    rewrite (length_Ins_filter _ _ _ _ _ a Hb1), (length_Ins_filter _ _ _ _ _ a Hb2).
    rewrite (length_Outs_filter _ _ _ _ _ a Hb1), (length_Outs_filter _ _ _ _ _ a Hb2).
    case_decide; [|done].
    rewrite (length_filter_Permutation (dependency_into a) _ _ Hl1).
    rewrite (length_filter_Permutation (leaving a) _ _ Hl1).
    rewrite (same_edge_filter (dependency_into a) l (edge_cells h2')
               (same_edge_dependency_into a) Hl2).
    by rewrite (same_edge_filter (leaving a) l (edge_cells h2') (same_edge_leaving a) Hl2).
Qed.

Lemma graphABC_reversed_built :
  makeDependencyGraph reversed_order snapABC default_options =
  Some (graphABC_reversed.1, graphABC_reversed.2).
Proof. vm_compute. reflexivity. Qed.

Lemma iteration_order_irrelevant_witness :
  makeDependencyGraph listed_order snapABC default_options =
    Some (graphABC.1, graphABC.2) ∧
  makeDependencyGraph reversed_order snapABC default_options =
    Some (graphABC_reversed.1, graphABC_reversed.2) ∧
  graphABC.1 = graphABC_reversed.1 ∧
  edge_cells graphABC.2 ≠ edge_cells graphABC_reversed.2.
Proof.
  split; [exact graphABC_built|]. split; [exact graphABC_reversed_built|].
  split; [|vm_compute; discriminate].
  exact (proj1 (proj2 (iteration_order_irrelevant listed_order reversed_order snapABC
                         default_options) _ _ _ _ graphABC_built graphABC_reversed_built)).
Defined.

(** ** Edges and edge lists agree *)

Lemma filter_all {A} (P : A → Prop) `{!∀ x, Decision (P x)} (l : list A) :
  (∀ x, x ∈ l → P x) → filter P l = l.
Proof.
  induction l as [|x l IH]; intros HP; [done|].
  rewrite filter_cons_True by (apply HP; left). f_equal. apply IH.
  intros y ?. apply HP. by right.
Qed.

Lemma lookup_positions (P : Edge → bool) (l : list Edge) :
  (λ i, l !! i) <$> positions P l = Some <$> filter (λ e, P e) l.
Proof.
  induction l as [|e l IH] using rev_ind; [done|].
  rewrite positions_snoc, filter_app, !fmap_app. f_equal.
  - rewrite <- IH. apply list_fmap_ext. intros k i Hi.
    apply list_elem_of_lookup_2, elem_of_positions in Hi as (e' & He' & _).
    apply lookup_lt_Some in He'. by rewrite lookup_app_l.
  - rewrite filter_cons, filter_nil. destruct (P e); simpl; [|done].
    by rewrite list_lookup_middle.
Qed.

(** X2: in a returned graph every edge object of the store has a
    [from] that is a vertex of the graph and is held by the outgoing
    list of that vertex and of no other; a dependency edge has a [to]
    that is a vertex of the graph and is held by the incoming list of
    that vertex and of no other; a parent edge is held by no incoming
    list. *)
Theorem every_edge_is_listed sched snapshot opts dg h i e :
  makeDependencyGraph sched snapshot opts = Some (dg, h) →
  edge_cells h !! i = Some e →
  (∃ u a, vertices dg !! u = Some a ∧ From e = Some a ∧ ∀ b, i ∈ Outs h b ↔ b = a) ∧
  (is_dependencyEdge e = true →
   ∃ u c, vertices dg !! u = Some c ∧ To e = Some c ∧ ∀ b, i ∈ Ins h b ↔ b = c) ∧
  (is_parentEdge e = true → ∀ b, i ∉ Ins h b).
Proof.
  intros Hrun Hie.
  pose proof (makeDependencyGraph_built _ _ _ _ _ Hrun) as [Hbuilt _].
  assert (∀ u a, vertices dg !! u = Some a → From e = Some a →
            ∀ b, i ∈ Outs h b ↔ b = a) as Houts.
  { intros u a Hu Hf b. rewrite (elem_of_Outs Hbuilt). split.
    - intros (_ & e' & He' & Hl). rewrite Hie in He'. injection He' as <-.
      unfold leaving in Hl. apply bool_decide_eq_true in Hl. congruence.
    - intros ->. destruct (built_vertex Hbuilt _ _ Hu) as (? & ?%lookup_lt_Some & _).
      split; [done|]. exists e. split; [done|]. unfold leaving.
      by rewrite bool_decide_true. }
  assert (∀ c, To e = Some c → is_dependencyEdge e = true → c < length (vertex_cells h) →
            ∀ b, i ∈ Ins h b ↔ b = c) as Hins.
  { intros c Ht Hd Hc b. rewrite (elem_of_Ins Hbuilt). split.
    - intros (_ & e' & He' & Hl). rewrite Hie in He'. injection He' as <-.
      unfold dependency_into in Hl. rewrite Hd in Hl; simpl in Hl.
      apply bool_decide_eq_true in Hl. congruence.
    - intros ->. split; [done|]. exists e. split; [done|]. unfold dependency_into.
      by rewrite Hd, bool_decide_true. }
  pose proof (list_elem_of_lookup_2 _ _ _ Hie) as Hin.
  apply (elem_of_built_edges Hbuilt) in Hin as (u & a & r & Hu & Hr & Hin).
  destruct (built_vertex Hbuilt _ _ Hu) as (v & Hv & Hrv & _).
  assert (vresource v = r) as Hvr by congruence.
  apply elem_of_app in Hin as [Hin|Hin].
  - unfold dependency_edges_of in Hin.
    destruct (ignoreDependencyEdges opts) eqn:Hi; [by apply elem_of_nil in Hin|].
    apply list_elem_of_fmap in Hin as (dep & -> & Hdep).
    destruct (resolved_dependency _ _ _ _ _ u a v dep Hrun Hi Hu Hv) as [b Hb];
      [by rewrite Hvr|].
    simpl. rewrite Hb. split; [|split; [|done]].
    + exists dep, b. split; [done|]. split; [done|]. apply (Houts dep); [done|].
      simpl. by rewrite Hb.
    + intros _. exists u, a. split; [done|]. split; [done|].
      apply Hins; [done|done|by eapply lookup_lt_Some].
  - apply parent_edge_color in Hin as (-> & _). simpl. split; [|split; [done|]].
    + exists u, a. split; [done|]. split; [done|]. by apply (Houts u).
    + intros _ b (_ & e' & He' & Hl)%(elem_of_Ins Hbuilt).
      rewrite Hie in He'. by injection He' as <-.
Qed.

Lemma every_edge_is_listed_witness :
  makeDependencyGraph listed_order snapABC default_options =
    Some (graphABC.1, graphABC.2) ∧
  edge_cells graphABC.2 !! 1 = Some (dependencyEdge (Some 1) (Some 0) ["input"] "#246C60") ∧
  ∃ u c, vertices graphABC.1 !! u = Some c ∧ Some 1 = Some c ∧
         ∀ b, 1 ∈ Ins graphABC.2 b ↔ b = c.
Proof.
  assert (edge_cells graphABC.2 !! 1 =
          Some (dependencyEdge (Some 1) (Some 0) ["input"] "#246C60")) as Hie
    by (vm_compute; reflexivity).
  split; [exact graphABC_built|]. split; [exact Hie|].
  exact (proj1 (proj2 (every_edge_is_listed listed_order snapABC default_options
                         graphABC.1 graphABC.2 1 _ graphABC_built Hie)) eq_refl).
Defined.

(** X3: in a returned graph an edge list never names an edge twice,
    every entry of an incoming list is a dependency edge of the store
    whose [to] is the vertex of the list, and every entry of an
    outgoing list is an edge of the store whose [from] is the vertex of
    the list. *)
Theorem edge_lists_match_endpoints sched snapshot opts dg h a :
  makeDependencyGraph sched snapshot opts = Some (dg, h) →
  NoDup (Ins h a) ∧ NoDup (Outs h a) ∧
  (∀ i, i ∈ Ins h a →
     ∃ e, edge_cells h !! i = Some e ∧ is_dependencyEdge e = true ∧ To e = Some a) ∧
  (∀ i, i ∈ Outs h a → ∃ e, edge_cells h !! i = Some e ∧ From e = Some a).
Proof.
  intros [Hbuilt _]%makeDependencyGraph_built.
  split; [by apply (NoDup_Ins Hbuilt)|]. split; [by apply (NoDup_Outs Hbuilt)|]. split.
  - intros i (_ & e & He & Hd)%(elem_of_Ins Hbuilt). exists e. split; [done|].
    unfold dependency_into in Hd. apply andb_true_iff in Hd as [Hk Ht].
    by apply bool_decide_eq_true in Ht.
  - intros i (_ & e & He & Hl)%(elem_of_Outs Hbuilt). exists e. split; [done|].
    by apply bool_decide_eq_true in Hl.
Qed.

Lemma edge_lists_match_endpoints_witness :
  makeDependencyGraph listed_order snapABC default_options =
    Some (graphABC.1, graphABC.2) ∧
  NoDup (Ins graphABC.2 1).
Proof.
  split; [exact graphABC_built|].
  exact (proj1 (edge_lists_match_endpoints listed_order snapABC default_options
                  graphABC.1 graphABC.2 1 graphABC_built)).
Defined.

(** ** The incoming list of a vertex *)

Lemma filter_dependency_into sched snapshot opts dg h u a v :
  built sched snapshot opts dg h →
  vertices dg !! u = Some a → vertex_cells h !! a = Some v →
  filter (λ e, dependency_into a e) (edge_cells h) =
  dependency_edges_of sched opts dg a (vresource v).
Proof.
  intros Hbuilt Hu Hv.
  rewrite (filter_owned Hbuilt (dependency_into a) u a (vresource v) Hu
             (built_record Hbuilt a v Hv)).
  - rewrite filter_app.
    rewrite (filter_none _ (parent_edges_of opts dg a (vresource v))), app_nil_r.
    + apply filter_all. intros e (Hk & _ & Ht)%dependency_edge_color.
      unfold dependency_into. by rewrite Hk, Ht, bool_decide_true.
    + intros e (-> & _)%parent_edge_color. simpl. tauto.
  - intros e. unfold dependency_into. destruct e; simpl; [|done].
    by intros ?%bool_decide_eq_true.
Qed.

(** X4: the incoming list of a vertex follows the dependency list of
    its record: with dependency edges not ignored, its k-th entry is a
    dependency edge to this vertex from the vertex of the k-th listed
    dependency, carrying the configured color; in particular the
    in-degree is the length of the dependency list, whatever the
    iteration order. *)
Theorem incoming_edges_follow_dependencies sched snapshot opts dg h u a v :
  makeDependencyGraph sched snapshot opts = Some (dg, h) →
  ignoreDependencyEdges opts = false →
  vertices dg !! u = Some a → vertex_cells h !! a = Some v →
  Forall2 (λ i dep, ∃ b labels,
             vertices dg !! dep = Some b ∧
             edge_cells h !! i =
               Some (dependencyEdge (Some a) (Some b) labels (dependencyEdgeColor opts)))
          (Ins h a) (Dependencies (vresource v)) ∧
  length (Ins h a) = length (Dependencies (vresource v)).
Proof.
  intros Hrun Hi Hu Hv.
  pose proof (makeDependencyGraph_built _ _ _ _ _ Hrun) as [Hbuilt _].
  pose proof (lookup_positions (dependency_into a) (edge_cells h)) as Hlook.
  rewrite (filter_dependency_into _ _ _ _ _ u a v Hbuilt Hu Hv) in Hlook.
  rewrite <- (built_Ins Hbuilt a) in Hlook by (by eapply lookup_lt_Some).
  unfold dependency_edges_of in Hlook. rewrite Hi, <- list_fmap_compose in Hlook.
  assert (Forall2 (λ i dep, ∃ b labels,
             vertices dg !! dep = Some b ∧
             edge_cells h !! i =
               Some (dependencyEdge (Some a) (Some b) labels (dependencyEdgeColor opts)))
            (Ins h a) (Dependencies (vresource v))) as HF.
  { apply Forall2_same_length_lookup. split.
    - apply (f_equal length) in Hlook. by rewrite !length_fmap in Hlook.
    - intros k i dep Hki Hkd.
      apply (f_equal (λ l, l !! k)) in Hlook.
      rewrite !list_lookup_fmap, Hki, Hkd in Hlook. simpl in Hlook.
      injection Hlook as Hlook.
      destruct (resolved_dependency _ _ _ _ _ u a v dep Hrun Hi Hu Hv) as [b Hb];
        [by eapply list_elem_of_lookup_2|].
      exists b. eexists. split; [done|]. by rewrite Hlook, Hb. }
  split; [done|]. by eapply Forall2_length.
Qed.

Lemma incoming_edges_follow_dependencies_witness :
  makeDependencyGraph listed_order snapAB2 default_options =
    Some (graphAB2.1, graphAB2.2) ∧
  length (Ins graphAB2.2 1) = 2.
Proof.
  assert (makeDependencyGraph listed_order snapAB2 default_options =
          Some (graphAB2.1, graphAB2.2)) as Hrun by (vm_compute; reflexivity).
  split; [exact Hrun|].
  exact (proj2 (incoming_edges_follow_dependencies listed_order snapAB2 default_options
                  graphAB2.1 graphAB2.2 "B" 1 (mkVertex resB2 [0; 1] [] false)
                  Hrun eq_refl eq_refl eq_refl)).
Defined.

(** ** Parent edges of the graph *)

(** X5: in a returned graph every parent edge has no label, carries
    the configured parent color, leaves a vertex of the graph whose
    record names a non-empty parent, and points to the map entry of
    that parent; a vertex whose record has an empty parent has no
    parent edge at all. *)
Theorem parent_edges_of_graph sched snapshot opts dg h :
  makeDependencyGraph sched snapshot opts = Some (dg, h) →
  (∀ e, e ∈ edge_cells h → is_parentEdge e = true →
     Label e = EmptyString ∧ Labels e = [] ∧ Color e = parentEdgeColor opts ∧
     ignoreParentEdges opts = false ∧
     ∃ u a v, vertices dg !! u = Some a ∧ vertex_cells h !! a = Some v ∧
              From e = Some a ∧ Parent (vresource v) ≠ EmptyString ∧
              To e = vertices dg !! Parent (vresource v)) ∧
  (∀ u a v, vertices dg !! u = Some a → vertex_cells h !! a = Some v →
            Parent (vresource v) = EmptyString →
            positions (parent_of_child a) (edge_cells h) = []).
Proof.
  intros [Hbuilt _]%makeDependencyGraph_built. split.
  - intros e (u & a & r & Hu & Hr & [He|He]%elem_of_app)%(elem_of_built_edges Hbuilt) Hp.
    + apply dependency_edge_color in He as (Hk & _). unfold is_parentEdge in Hp.
      by rewrite Hk in Hp.
    + apply parent_edge_color in He as (-> & Hi & Hne). simpl.
      repeat (split; [done|]).
      destruct (built_vertex Hbuilt _ _ Hu) as (v & Hv & Hrv & _).
      assert (vresource v = r) as Hvr by congruence.
      exists u, a, v. by rewrite Hvr.
  - intros u a v Hu Hv Hp.
    pose proof (parent_edges_from Hbuilt u a v Hu Hv) as Hf.
    unfold parent_edges_of in Hf. rewrite Hp in Hf.
    destruct (ignoreParentEdges opts); simpl in Hf.
    + apply length_zero_iff_nil. by rewrite length_positions, Hf.
    + apply length_zero_iff_nil. by rewrite length_positions, Hf.
Qed.

Lemma parent_edges_of_graph_witness :
  makeDependencyGraph listed_order snapABC default_options =
    Some (graphABC.1, graphABC.2) ∧
  positions (parent_of_child 0) (edge_cells graphABC.2) = [].
Proof.
  split; [exact graphABC_built|].
  exact (proj2 (parent_edges_of_graph listed_order snapABC default_options
                  graphABC.1 graphABC.2 graphABC_built)
           "A" 0 (mkVertex resA [] [1] false) eq_refl eq_refl eq_refl).
Defined.

(** ** Counting edges *)

Lemma length_filter_join {A} (P : A → Prop) `{!∀ x, Decision (P x)} (ls : list (list A)) :
  length (filter P (mjoin ls)) = sum_list_with (λ l, length (filter P l)) ls.
Proof.
  induction ls as [|l ls IH]; [done|].
  change (mjoin (l :: ls)) with (l ++ mjoin ls).
  rewrite filter_app, length_app, IH. done.
Qed.

Lemma sum_list_with_compose {A B} (f : B → nat) (g : A → B) (l : list A) :
  sum_list_with f (g <$> l) = sum_list_with (λ x, f (g x)) l.
Proof. induction l as [|x l IH]; [done|]. csimpl. by rewrite IH. Qed.

Lemma sum_list_with_ext_in {A} (f g : A → nat) (l : list A) :
  (∀ x, x ∈ l → f x = g x) → sum_list_with f l = sum_list_with g l.
Proof.
  induction l as [|x l IH]; intros Hfg; [done|]. simpl.
  rewrite (Hfg x) by left. rewrite IH; [done|]. intros y ?. apply Hfg. by right.
Qed.

Lemma sum_list_with_indices {A} (f : A → nat) (l : list A) :
  sum_list_with (λ a, from_option f 0 (l !! a)) (seq 0 (length l)) = sum_list_with f l.
Proof.
  induction l as [|x l IH] using rev_ind; [done|].
  rewrite length_app, Nat.add_1_r, seq_S, !sum_list_with_app; simpl.
  rewrite list_lookup_middle by done; simpl. f_equal.
  rewrite <- IH. apply sum_list_with_ext_in. intros a [_ Ha]%elem_of_seq.
  by rewrite lookup_app_l by lia.
Qed.

Lemma sum_list_with_zero {A} (l : list A) : sum_list_with (λ _, 0) l = 0.
Proof. induction l as [|x l IH]; [done|]. simpl. by rewrite IH. Qed.

Lemma order_targets sched snapshot opts dg h :
  built sched snapshot opts dg h →
  NoDup (ID <$> Resources snapshot) →
  (range_vertices sched (map_to_list (vertices dg))).*2 ≡ₚ
  seq 0 (length (Resources snapshot)).
Proof.
  intros Hbuilt Hnd. apply NoDup_Permutation.
  - apply (NoDup_order Hbuilt).
  - apply NoDup_seq.
  - intros a. rewrite elem_of_seq, list_elem_of_fmap. split.
    + intros ([u a'] & -> & Hin%elem_of_order). simpl.
      destruct (built_vertex Hbuilt _ _ Hin) as (v & _ & Hr%lookup_lt_Some & _). lia.
    + intros [_ Ha]. simpl in Ha.
      destruct (lookup_lt_is_Some_2 _ _ Ha) as [r Hr].
      exists (ID r, a). split; [done|]. apply elem_of_order.
      destruct Hbuilt as (Hmap & _). apply Hmap. by apply last_record_NoDup.
Qed.

(** The edges selected by [P], counted record by record. *)
Lemma count_by_record sched snapshot opts dg h (P : Edge → bool) (f : State → nat) :
  built sched snapshot opts dg h →
  NoDup (ID <$> Resources snapshot) →
  (∀ a r, Resources snapshot !! a = Some r →
     length (filter (λ e, P e)
               (dependency_edges_of sched opts dg a r ++ parent_edges_of opts dg a r)) = f r) →
  length (filter (λ e, P e) (edge_cells h)) = sum_list_with f (Resources snapshot).
Proof.
  intros Hbuilt Hnd Hf.
  pose proof Hbuilt as (_ & _ & _ & -> & _).
  rewrite length_filter_join, sum_list_with_compose.
  rewrite <- (sum_list_with_indices f (Resources snapshot)).
  rewrite <- (order_targets _ _ _ _ _ Hbuilt Hnd), sum_list_with_compose.
  apply sum_list_with_ext_in. intros [u a] _. unfold edges_of; simpl.
  destruct (Resources snapshot !! a) as [r|] eqn:Hr; simpl; [|done].
  by apply Hf.
Qed.

Lemma count_with_parent (rs : list State) :
  sum_list_with (λ r, if decide (Parent r = EmptyString) then 0 else 1) rs =
  length (filter (λ r, Parent r ≠ EmptyString) rs).
Proof.
  induction rs as [|r rs IH]; [done|].
  simpl. rewrite filter_cons, IH.
  destruct (decide (Parent r = EmptyString)) as [Hp|Hp].
  - by rewrite decide_False by (by intros ?).
  - by rewrite decide_True.
Qed.

(** X6: for a snapshot with distinct URNs, a returned graph has as
    many dependency edges as the records list dependencies in total
    (none when they are ignored), as many parent edges as there are
    records with a non-empty parent (none when they are ignored), and
    no other edge. *)
Theorem edge_counts sched snapshot opts dg h :
  NoDup (ID <$> Resources snapshot) →
  makeDependencyGraph sched snapshot opts = Some (dg, h) →
  length (filter (λ e, is_dependencyEdge e) (edge_cells h)) =
    (if ignoreDependencyEdges opts then 0
     else sum_list_with (λ r, length (Dependencies r)) (Resources snapshot)) ∧
  length (filter (λ e, is_parentEdge e) (edge_cells h)) =
    (if ignoreParentEdges opts then 0
     else length (filter (λ r, Parent r ≠ EmptyString) (Resources snapshot))) ∧
  length (edge_cells h) =
    length (filter (λ e, is_dependencyEdge e) (edge_cells h)) +
    length (filter (λ e, is_parentEdge e) (edge_cells h)).
Proof.
  intros Hnd [Hbuilt _]%makeDependencyGraph_built. split; [|split].
  - rewrite (count_by_record _ _ _ _ _ is_dependencyEdge
               (λ r, if ignoreDependencyEdges opts then 0 else length (Dependencies r))
               Hbuilt Hnd).
    + destruct (ignoreDependencyEdges opts); [apply sum_list_with_zero|done].
    + intros a r _. rewrite filter_app.
      rewrite (filter_none _ (parent_edges_of opts dg a r)), app_nil_r.
      * rewrite filter_all by (by intros e (-> & _)%dependency_edge_color).
        unfold dependency_edges_of. destruct (ignoreDependencyEdges opts); [done|].
        by rewrite length_fmap.
      * intros e (-> & _)%parent_edge_color. simpl. tauto.
  - rewrite (count_by_record _ _ _ _ _ is_parentEdge
               (λ r, if ignoreParentEdges opts then 0
                     else if decide (Parent r = EmptyString) then 0 else 1)
               Hbuilt Hnd).
    + destruct (ignoreParentEdges opts); [apply sum_list_with_zero|].
      apply count_with_parent.
    + intros a r _. rewrite filter_app.
      rewrite (filter_none _ (dependency_edges_of sched opts dg a r)); simpl.
      * unfold parent_edges_of. destruct (ignoreParentEdges opts); [done|].
        case_decide; [done|]. by rewrite filter_cons_True.
      * intros e (He & _)%dependency_edge_color. unfold is_parentEdge.
        rewrite He. simpl. tauto.
  - induction (edge_cells h) as [|e es IH]; [done|].
    rewrite !filter_cons. unfold is_parentEdge in *.
    destruct (is_dependencyEdge e); simpl; lia.
Qed.

Lemma edge_counts_witness :
  NoDup (ID <$> Resources snapABC) ∧
  makeDependencyGraph listed_order snapABC default_options =
    Some (graphABC.1, graphABC.2) ∧
  length (filter (λ e, is_dependencyEdge e) (edge_cells graphABC.2)) = 1.
Proof.
  assert (NoDup (ID <$> Resources snapABC)) as Hnd
    by (apply (bool_decide_unpack _); vm_compute; exact I).
  split; [exact Hnd|]. split; [exact graphABC_built|].
  exact (proj1 (edge_counts listed_order snapABC default_options graphABC.1 graphABC.2
                  Hnd graphABC_built)).
Defined.

(** ** Vertex labels *)

(** X7: every vertex of a returned graph carries the display flag of
    the options and holds a record whose URN is its key in the map; its
    label is that key, or the name of that key when short names are
    asked for.  With full names, two vertices with the same label are
    the same vertex. *)
Theorem vertex_labels (Name : URN → string) sched snapshot opts dg h :
  makeDependencyGraph sched snapshot opts = Some (dg, h) →
  (∀ u a v, vertices dg !! u = Some a → vertex_cells h !! a = Some v →
     useShortName v = shortNodeName opts ∧ ID (vertex_Data v) = u ∧
     vertex_Label Name v = if shortNodeName opts then Name u else u) ∧
  (shortNodeName opts = false →
   ∀ u1 a1 v1 u2 a2 v2,
     vertices dg !! u1 = Some a1 → vertex_cells h !! a1 = Some v1 →
     vertices dg !! u2 = Some a2 → vertex_cells h !! a2 = Some v2 →
     vertex_Label Name v1 = vertex_Label Name v2 → a1 = a2).
Proof.
  intros [Hbuilt _]%makeDependencyGraph_built.
  assert (∀ u a v, vertices dg !! u = Some a → vertex_cells h !! a = Some v →
            useShortName v = shortNodeName opts ∧ ID (vertex_Data v) = u ∧
            vertex_Label Name v = if shortNodeName opts then Name u else u) as Hlabel.
  { intros u a v Hu Hv.
    destruct (built_vertex Hbuilt _ _ Hu) as (v' & Hv' & _ & Hid & Hshort).
    assert (v' = v) as -> by congruence.
    split; [done|]. split; [done|].
    unfold vertex_Label. by rewrite Hshort, Hid. }
  split; [done|].
  intros Hfull u1 a1 v1 u2 a2 v2 Hu1 Hv1 Hu2 Hv2 Heq.
  destruct (Hlabel _ _ _ Hu1 Hv1) as (_ & _ & Hl1).
  destruct (Hlabel _ _ _ Hu2 Hv2) as (_ & _ & Hl2).
  rewrite Hl1, Hl2, Hfull in Heq. congruence.
Qed.

Lemma vertex_labels_witness :
  makeDependencyGraph listed_order snapABC default_options =
    Some (graphABC.1, graphABC.2) ∧
  vertex_Label (λ _, "short") (mkVertex resB [1] [] false) = "B".
Proof.
  split; [exact graphABC_built|].
  exact (proj2 (proj2 (proj1 (vertex_labels (λ _, "short") listed_order snapABC
                                default_options graphABC.1 graphABC.2 graphABC_built)
                         "B" 1 (mkVertex resB [1] [] false) eq_refl eq_refl))).
Defined.

(** ** Roots and the graph *)

(** X8: [Roots] leaves the vertices and the edges of the graph as they
    are, and the root edges it returns are new objects: none of them is
    an edge of the graph before the call, and none is in the incoming
    or outgoing list of any vertex. *)
Theorem Roots_leaves_graph_untouched sched snapshot opts order dg h :
  makeDependencyGraph sched snapshot opts = Some (dg, h) →
  vertex_cells (Roots order dg h).2 = vertex_cells h ∧
  (∀ i e, edge_cells h !! i = Some e → edge_cells (Roots order dg h).2 !! i = Some e) ∧
  (∀ i a, i ∈ (Roots order dg h).1 →
          edge_cells h !! i = None ∧
          (i ∉ Ins (Roots order dg h).2 a) ∧ (i ∉ Outs (Roots order dg h).2 a)).
Proof.
  intros [Hbuilt _]%makeDependencyGraph_built. rewrite Roots_spec; simpl.
  split; [done|]. split.
  - intros i e Hie. by apply lookup_app_l_Some.
  - intros i a [Hge _]%elem_of_seq.
    split; [by apply lookup_ge_None_2|]. unfold Ins, Outs; simpl.
    fold (Ins h a) (Outs h a). split.
    + intros (_ & e & He%lookup_lt_Some & _)%(elem_of_Ins Hbuilt). lia.
    + intros (_ & e & He%lookup_lt_Some & _)%(elem_of_Outs Hbuilt). lia.
Qed.

Lemma Roots_leaves_graph_untouched_witness :
  makeDependencyGraph listed_order snapABC default_options =
    Some (graphABC.1, graphABC.2) ∧
  vertex_cells (Roots reversed_order graphABC.1 graphABC.2).2 = vertex_cells graphABC.2.
Proof.
  split; [exact graphABC_built|].
  exact (proj1 (Roots_leaves_graph_untouched listed_order snapABC default_options
                  reversed_order graphABC.1 graphABC.2 graphABC_built)).
Defined.

(** ** The command, on every path *)

Ltac run_cases :=
  unfold RunE; repeat (case_match; simplify_eq/=).

Ltac trace_membership :=
  repeat match goal with
         | H : _ ∈ [] |- _ => by apply elem_of_nil in H
         | H : _ ∈ _ :: _ |- _ => apply elem_of_cons in H as [H|H]; simplify_eq/=
         end.

(** X9: on every path of [RunE] the output file is closed if and only
    if [os.Create] was called on [args[0]] and succeeded and the
    command did not panic; it is then closed once, as the last thing
    the command does.  [os.Create] is only ever called after
    [makeDependencyGraph] has returned.  When [dotconv.Print] panics,
    the file that was created is left open: the call of
    [dotconv.Print] is the last thing the command does. *)
Theorem file_closed_unless_Print_panics env sched cmdOpts args :
  (called_file_Close ∈ (RunE env sched cmdOpts args).1 ↔
   ∃ name, args !! 0 = Some name ∧
           called_os_Create name ∈ (RunE env sched cmdOpts args).1 ∧
           os_Create env name = None ∧
           (RunE env sched cmdOpts args).2 ≠ panicked) ∧
  (called_file_Close ∈ (RunE env sched cmdOpts args).1 →
   last (RunE env sched cmdOpts args).1 = Some called_file_Close ∧
   length (filter (λ ev, ev = called_file_Close) (RunE env sched cmdOpts args).1) = 1) ∧
  (∀ name, called_os_Create name ∈ (RunE env sched cmdOpts args).1 →
           args !! 0 = Some name ∧
           head (RunE env sched cmdOpts args).1 = Some called_makeDependencyGraph ∧
           ∃ s snap, RequireStack env (stackName cmdOpts) = inr s ∧
                     Stack_Snapshot env s = inr (Some snap) ∧
                     is_Some (makeDependencyGraph sched snap cmdOpts)) ∧
  (∀ name, called_os_Create name ∈ (RunE env sched cmdOpts args).1 →
           (RunE env sched cmdOpts args).2 = panicked →
           os_Create env name = None ∧
           (called_file_Close ∉ (RunE env sched cmdOpts args).1) ∧
           last (RunE env sched cmdOpts args).1 =
             Some (called_dotconv_Print (dotFragment cmdOpts)) ∧
           ∃ dg h, dotconv_Print env dg h (dotFragment cmdOpts) = panicked).
Proof.
  split; [|split; [|split]].
  - split.
    + run_cases; intros Hin; trace_membership; eexists; (split; [done|]);
        (split; [right; left|]); done.
    + intros (name & Hargs & Hin & Hcreate & Hout). revert Hin Hout.
      run_cases; intros Hin Hout; trace_membership; try congruence;
        repeat (first [left; done | right]).
  - run_cases; intros Hin; trace_membership; done.
  - intros name. run_cases; intros Hin; trace_membership;
      (split; [done|]); (split; [done|]); eauto.
  - intros name. run_cases; intros Hin Hout; trace_membership; simplify_eq.
    split; [done|]. split; [intros Hin; trace_membership|]. split; [done|]. eauto.
Qed.

(** X10: [RunE] returns nil exactly when the stack was selected, it
    has a snapshot, the builder returned a graph, [args[0]] exists, and
    creating, printing and closing the file all succeeded. *)
Theorem RunE_succeeds_iff env sched cmdOpts args :
  (RunE env sched cmdOpts args).2 = returned None ↔
  ∃ s snap dg h name,
    RequireStack env (stackName cmdOpts) = inr s ∧
    Stack_Snapshot env s = inr (Some snap) ∧
    makeDependencyGraph sched snap cmdOpts = Some (dg, h) ∧
    args !! 0 = Some name ∧
    os_Create env name = None ∧
    dotconv_Print env dg h (dotFragment cmdOpts) = returned None ∧
    file_Close env = None.
Proof.
  split.
  - run_cases; intros Hout; simplify_eq. repeat eexists; eauto.
  - intros (s & snap & dg & h & name & Hs & Hsnap & Hrun & Hargs & Hc & Hp & Hcl).
    unfold RunE. by rewrite Hs, Hsnap, Hrun, Hargs, Hc, Hp, Hcl.
Qed.

(** X11: the confirmation is printed exactly when [dotconv.Print] has
    returned nil; [RunE] then returns whatever [file.Close] returns, so
    the confirmation precedes a possible error of the close.  When
    [dotconv.Print] returns an error, the file is closed, nothing is
    printed, and that error is returned whatever the close returns. *)
Theorem confirmation_follows_print env sched cmdOpts args :
  ((∃ format values, called_Printf format values ∈ (RunE env sched cmdOpts args).1) ↔
   ∃ s snap dg h name,
     RequireStack env (stackName cmdOpts) = inr s ∧
     Stack_Snapshot env s = inr (Some snap) ∧
     makeDependencyGraph sched snap cmdOpts = Some (dg, h) ∧
     args !! 0 = Some name ∧ os_Create env name = None ∧
     dotconv_Print env dg h (dotFragment cmdOpts) = returned None) ∧
  ((∃ format values, called_Printf format values ∈ (RunE env sched cmdOpts args).1) →
   (RunE env sched cmdOpts args).2 = returned (file_Close env)) ∧
  (∀ s snap dg h name err,
     RequireStack env (stackName cmdOpts) = inr s →
     Stack_Snapshot env s = inr (Some snap) →
     makeDependencyGraph sched snap cmdOpts = Some (dg, h) →
     args !! 0 = Some name → os_Create env name = None →
     dotconv_Print env dg h (dotFragment cmdOpts) = returned (Some err) →
     RunE env sched cmdOpts args =
     ([called_makeDependencyGraph; called_os_Create name;
       called_dotconv_Print (dotFragment cmdOpts); called_file_Close],
      returned (Some err))).
Proof.
  split; [|split].
  - split.
    + run_cases; intros (format & values & Hin); trace_membership.
      repeat eexists; eauto.
    + intros (s & snap & dg & h & name & Hs & Hsnap & Hrun & Hargs & Hc & Hp).
      unfold RunE. rewrite Hs, Hsnap, Hrun, Hargs, Hc, Hp. simpl.
      do 2 eexists. do 3 right. left.
  - run_cases; intros (format & values & Hin); trace_membership. done.
  - intros s snap dg h name err Hs Hsnap Hrun Hargs Hc Hp.
    unfold RunE. by rewrite Hs, Hsnap, Hrun, Hargs, Hc, Hp.
Qed.

Lemma makeDependencyGraph_panics sched snapshot opts a r dep :
  ignoreDependencyEdges opts = false →
  Resources snapshot !! a = Some r →
  (∀ j r', a < j → Resources snapshot !! j = Some r' → ID r' ≠ ID r) →
  dep ∈ Dependencies r → dep ∉ ID <$> Resources snapshot →
  makeDependencyGraph sched snapshot opts = None.
Proof.
  intros Hi Hr Hlast Hdep Hmiss.
  destruct (makeDependencyGraph sched snapshot opts) as [[dg h]|] eqn:Hrun; [|done].
  pose proof (makeDependencyGraph_built _ _ _ _ _ Hrun) as [Hbuilt _].
  assert (vertices dg !! ID r = Some a) as Hu.
  { destruct Hbuilt as (Hmap & _). apply Hmap. split; [by rewrite list_lookup_fmap, Hr|].
    intros j Hj Hju. rewrite list_lookup_fmap in Hju.
    destruct (Resources snapshot !! j) as [r'|] eqn:Hr'; [|done].
    apply (Hlast j r' Hj Hr'). by injection Hju. }
  destruct (built_vertex Hbuilt _ _ Hu) as (v & Hv & Hrv & _).
  assert (vresource v = r) as Hvr by congruence.
  destruct Hmiss. apply (built_is_vertex Hbuilt).
  eapply (resolved_dependency _ _ _ _ _ (ID r) a v); eauto. by rewrite Hvr.
Qed.

(** X12: called with at least one argument, on a stack in whose
    snapshot, if there is one, the records held by vertices list only
    dependencies that name a record (or with dependency edges ignored),
    the command panics exactly when [dotconv.Print] does: the builder
    has then returned a graph, the file has been created, and the call
    of [dotconv.Print] is the last thing the command does.  The other
    functions the command calls are taken to return. *)
Theorem RunE_panics_only_in_Print env sched cmdOpts name rest :
  (∀ s snap,
     RequireStack env (stackName cmdOpts) = inr s →
     Stack_Snapshot env s = inr (Some snap) →
     ignoreDependencyEdges cmdOpts = false →
     ∀ a r dep,
       Resources snap !! a = Some r →
       (∀ j r', a < j → Resources snap !! j = Some r' → ID r' ≠ ID r) →
       dep ∈ Dependencies r → dep ∈ ID <$> Resources snap) →
  (RunE env sched cmdOpts (name :: rest)).2 = panicked ↔
  ∃ s snap dg h,
    RequireStack env (stackName cmdOpts) = inr s ∧
    Stack_Snapshot env s = inr (Some snap) ∧
    makeDependencyGraph sched snap cmdOpts = Some (dg, h) ∧
    os_Create env name = None ∧
    dotconv_Print env dg h (dotFragment cmdOpts) = panicked ∧
    (RunE env sched cmdOpts (name :: rest)).1 =
      [called_makeDependencyGraph; called_os_Create name;
       called_dotconv_Print (dotFragment cmdOpts)].
Proof.
  intros Hok. split.
  - run_cases; intros Hout; simplify_eq;
      first [ match goal with
              | Hsnap : Stack_Snapshot _ ?s = inr (Some ?snap),
                Hrun : makeDependencyGraph _ ?snap _ = None |- _ =>
                  destruct (makeDependencyGraph_returns_held sched snap cmdOpts
                              (Hok s snap eq_refl Hsnap)) as (dg & h & Hrun' & _);
                  congruence
              end
            | repeat eexists; eauto ].
  - intros (s & snap & dg & h & Hs & Hsnap & Hrun & Hc & Hp & _).
    unfold RunE. rewrite Hs, Hsnap, Hrun. simpl. by rewrite Hc, Hp.
Qed.

Lemma RunE_panics_only_in_Print_witness :
  makeDependencyGraph listed_order snap_orphan options_for_dev =
    Some (graph_orphan.1, graph_orphan.2) ∧
  edge_cells graph_orphan.2 = [parentEdge None (Some 0) "#AA6639"] ∧
  (RunE orphan_stack listed_order options_for_dev ["graph.dot"]).2 = panicked ∧
  (RunE deployed_stack listed_order options_for_dev ["graph.dot"]).2 ≠ panicked.
Proof.
  assert (makeDependencyGraph listed_order snap_orphan options_for_dev =
          Some (graph_orphan.1, graph_orphan.2)) as Hrun by (vm_compute; reflexivity).
  split; [exact Hrun|]. split; [vm_compute; reflexivity|]. split.
  - apply (RunE_panics_only_in_Print orphan_stack listed_order options_for_dev
             "graph.dot" []).
    + intros s snap _ [= <-] _ a r dep Hr%list_elem_of_lookup_2 _ Hdep. simpl in Hr.
      apply list_elem_of_singleton in Hr as ->. by apply elem_of_nil in Hdep.
    + exists "dev", snap_orphan, graph_orphan.1, graph_orphan.2.
      split; [reflexivity|]. split; [reflexivity|]. split; [exact Hrun|].
      split; [reflexivity|]. split; [reflexivity|]. vm_compute. reflexivity.
  - intros Hout.
    apply (RunE_panics_only_in_Print deployed_stack listed_order options_for_dev
             "graph.dot" []) in Hout as (s & snap & dg & h & _ & _ & _ & _ & Hp & _).
    + discriminate Hp.
    + intros s snap _ [= <-] _ a r dep Hr%list_elem_of_lookup_2 _ Hdep. simpl in Hr.
      apply elem_of_cons in Hr as [->|Hr]; [by apply elem_of_nil in Hdep|].
      apply elem_of_cons in Hr as [->|Hr].
      * apply list_elem_of_singleton in Hdep as ->. left.
      * apply list_elem_of_singleton in Hr as ->. by apply elem_of_nil in Hdep.
Defined.

(** X13: when the record held by a vertex lists a dependency that no
    record of the snapshot carries, and dependency edges are not
    ignored, the command panics inside [makeDependencyGraph]: no file
    is created and nothing is printed. *)
Theorem dangling_dependency_panics_before_output env sched cmdOpts args s snap a r dep :
  RequireStack env (stackName cmdOpts) = inr s →
  Stack_Snapshot env s = inr (Some snap) →
  ignoreDependencyEdges cmdOpts = false →
  Resources snap !! a = Some r →
  (∀ j r', a < j → Resources snap !! j = Some r' → ID r' ≠ ID r) →
  dep ∈ Dependencies r → dep ∉ ID <$> Resources snap →
  RunE env sched cmdOpts args = ([called_makeDependencyGraph], panicked).
Proof.
  intros Hs Hsnap Hi Hr Hlast Hdep Hmiss. unfold RunE.
  rewrite Hs, Hsnap.
  by rewrite (makeDependencyGraph_panics sched snap cmdOpts a r dep Hi Hr Hlast Hdep Hmiss).
Qed.

Lemma dangling_dependency_panics_before_output_witness :
  ("X" ∉ ID <$> Resources snap_dangling) ∧
  RunE inconsistent_stack listed_order options_for_dev ["graph.dot"] =
  ([called_makeDependencyGraph], panicked).
Proof.
  assert ("X" ∉ ID <$> Resources snap_dangling) as Hmiss.
  { intros Hin. simpl in Hin. by apply list_elem_of_singleton in Hin. }
  split; [exact Hmiss|].
  apply (dangling_dependency_panics_before_output inconsistent_stack listed_order
           options_for_dev ["graph.dot"] "dev" snap_dangling 0
           (mkState "B" ["X"] ∅ EmptyString) "X").
  - reflexivity.
  - reflexivity.
  - reflexivity.
  - reflexivity.
  - intros j r' Hj Hr'. destruct j as [|[|j]]; [lia|done|done].
  - left.
  - exact Hmiss.
Defined.

(** ** The state delete command *)

Lemma delete_from_backwards env f (count : nat) :
  ∀ (deleted snap : list state_delete.resource_state),
  state_delete.keeps_earlier_resources env f →
  (count ≤ length snap)%nat →
  ∃ j snap' err,
    state_delete.delete_from env f count deleted snap =
      state_delete.edited (deleted ++ reverse (drop j (take count snap))) snap' err ∧
    (j ≤ count)%nat ∧ (err = None → j = 0) ∧ (is_Some err → j < count) ∧
    state_delete.deletion_run env f count snap j snap' err.
Proof.
  induction count as [|i IH]; intros deleted snap Hkeep Hlen; simpl.
  - exists 0, snap, None. rewrite app_nil_r. split; [done|]. split; [done|].
    split; [done|]. split; [by intros [? ?]|]. constructor.
  - destruct (lookup_lt_is_Some_2 snap i) as [res Hres]; [lia|]. rewrite Hres.
    pose proof (Hkeep snap i ltac:(lia)) as Htake.
    destruct (state_delete.DeleteResource env snap i
                (state_delete.handleProtected_or_nil f) (state_delete.targetDependents f))
      as [snap1 [err|]] eqn:Hcall; simpl in Htake.
    + exists i, snap1, (Some err). split.
      * do 2 f_equal. rewrite (take_S_r _ _ res) by done.
        rewrite drop_app_length'; [done|]. rewrite length_take. lia.
      * split; [lia|]. split; [done|]. split; [intros _; lia|].
        by apply state_delete.run_failed.
    + assert (i ≤ length snap1)%nat as Hlen1.
      { apply (f_equal length) in Htake. rewrite !length_take in Htake. lia. }
      destruct (IH (deleted ++ [res]) snap1 Hkeep Hlen1)
        as (j & snap' & err & -> & Hj & Hok & Herr & Hrun).
      exists j, snap', err. split.
      * f_equal. rewrite Htake, (take_S_r _ _ res) by done.
        rewrite drop_app_le by (rewrite length_take; lia).
        by rewrite reverse_app, <- app_assoc.
      * split; [lia|]. split; [done|]. split.
        -- intros He. specialize (Herr He). lia.
        -- by eapply state_delete.run_continued.
Qed.

(** X14: when [edit.DeleteResource] leaves the resources before the
    one it deletes in place, the callback of [--all] never indexes the
    snapshot out of range.  It calls [edit.DeleteResource] on the
    resources of the snapshot last first, each once, every call on the
    snapshot the call before it left; it goes on after a call that
    returns nil and stops at the first call that returns an error; it
    returns that error, or nil when every call returned nil, and
    leaves the snapshot as the last call left it. *)
Theorem delete_all_backwards env f (snap : list state_delete.resource_state) :
  state_delete.keeps_earlier_resources env f →
  ∃ j snap' err,
    state_delete.delete_all env f snap =
      state_delete.edited (reverse (drop j snap)) snap' err ∧
    (j ≤ length snap)%nat ∧ (err = None → j = 0) ∧ (is_Some err → j < length snap) ∧
    state_delete.deletion_run env f (length snap) snap j snap' err.
Proof.
  intros Hkeep. unfold state_delete.delete_all.
  destruct (delete_from_backwards env f (length snap) [] snap Hkeep (le_n _))
    as (j & snap' & err & Hrun & Hj & Hok & Herr & Hcalls).
  exists j, snap', err. rewrite firstn_all in Hrun. by rewrite Hrun.
Qed.

Lemma delete_all_backwards_witness :
  state_delete.keeps_earlier_resources state_delete.plain_environment
    state_delete.delete_everything ∧
  ∃ j snap' err,
    state_delete.delete_all state_delete.plain_environment state_delete.delete_everything
      state_delete.two_resources =
      state_delete.edited (reverse (drop j state_delete.two_resources)) snap' err ∧
    (j ≤ length state_delete.two_resources)%nat ∧ (err = None → j = 0) ∧
    (is_Some err → j < length state_delete.two_resources) ∧
    state_delete.deletion_run state_delete.plain_environment
      state_delete.delete_everything (length state_delete.two_resources)
      state_delete.two_resources j snap' err.
Proof.
  assert (state_delete.keeps_earlier_resources state_delete.plain_environment
            state_delete.delete_everything) as Hkeep.
  { intros snap i Hi. simpl. rewrite delete_take_drop, take_app_length'; [done|].
    rewrite length_take. lia. }
  split; [exact Hkeep|].
  exact (delete_all_backwards state_delete.plain_environment
           state_delete.delete_everything state_delete.two_resources Hkeep).
Defined.

Example delete_all_two_resources :
  state_delete.RunE state_delete.plain_environment state_delete.delete_everything [] =
  ([state_delete.called_runTotalStateEdit EmptyString false;
    state_delete.called_Println "Resources deleted"],
   state_delete.returned None).
Proof. vm_compute. reflexivity. Qed.

Ltac delete_cases :=
  unfold state_delete.RunE, state_delete.run_edit, state_delete.finish;
  repeat (case_match; simplify_eq/=).

(** X15: on every path of the delete command, a state edit is started
    only when the arguments are acceptable: the total edit exactly for
    [--all] without a URN, the edit of one resource exactly when
    [--all] is absent and a URN is given or was selected interactively.
    Either edit gets the stack of the flags and a prompt unless [--yes]
    or the environment skips confirmations; the total edit gets the
    callback that deletes every resource, the edit of one resource gets
    the URN given or selected and the callback that deletes that
    resource; and the command returns what that very call returned,
    with the error rewritten by lines 116-134.  A URN is asked for only
    without [--all], without an argument and in an interactive
    session. *)
Theorem edit_only_with_valid_arguments env f args :
  ((∃ s p, state_delete.called_runTotalStateEdit s p ∈ (state_delete.RunE env f args).1) ↔
   state_delete.all f = true ∧ args = []) ∧
  ((∃ s p urn, state_delete.called_runStateEdit s p urn ∈ (state_delete.RunE env f args).1) ↔
   state_delete.all f = false ∧
   ((∃ arg rest, args = arg :: rest) ∨
    (args = [] ∧ state_delete.Interactive env = true ∧
     ∃ urn, state_delete.getURNFromState env (state_delete.stack f)
              "Select the resource to delete" = inr urn))) ∧
  (∀ s p urn, state_delete.called_runStateEdit s p urn ∈ (state_delete.RunE env f args).1 →
     s = state_delete.stack f ∧
     p = negb (state_delete.yes f || state_delete.SkipConfirmations env) ∧
     (head args = Some urn ∨
      (args = [] ∧ state_delete.getURNFromState env (state_delete.stack f)
                     "Select the resource to delete" = inr urn))) ∧
  (state_delete.called_getURNFromState ∈ (state_delete.RunE env f args).1 ↔
   state_delete.all f = false ∧ args = [] ∧ state_delete.Interactive env = true) ∧
  (∀ s p, state_delete.called_runTotalStateEdit s p ∈ (state_delete.RunE env f args).1 →
     s = state_delete.stack f ∧
     p = negb (state_delete.yes f || state_delete.SkipConfirmations env) ∧
     (state_delete.RunE env f args).2 =
       state_delete.reported env
         (state_delete.runTotalStateEdit env (state_delete.stack f)
            (negb (state_delete.yes f || state_delete.SkipConfirmations env))
            (state_delete.delete_all env f))) ∧
  (∀ s p urn, state_delete.called_runStateEdit s p urn ∈ (state_delete.RunE env f args).1 →
     (state_delete.RunE env f args).2 =
       state_delete.reported env
         (state_delete.runStateEdit env (state_delete.stack f)
            (negb (state_delete.yes f || state_delete.SkipConfirmations env)) urn
            (state_delete.delete_one env f))).
Proof.
  split; [|split; [|split; [|split; [|split]]]].
  - split.
    + delete_cases; intros (stk & prompt & Hin);
        repeat (apply elem_of_app in Hin as [Hin|Hin]); trace_membership;
        try done; split; try done; by destruct args.
    + intros [Hall ->]. unfold state_delete.RunE, state_delete.run_edit. rewrite Hall. simpl.
      do 2 eexists. unfold state_delete.finish.
      repeat case_match; simpl; repeat (first [left; done | right]).
  - split.
    + delete_cases; intros (stk & prompt & chosen & Hin);
        repeat (apply elem_of_app in Hin as [Hin|Hin]); trace_membership;
        try done; (split; [done|]);
        first [solve [left; eauto]
              | right; split; [done|]; split; [by apply negb_false_iff|eauto]].
    + intros [Hall [(arg & rest & ->)|(-> & Hint & urn & Hget)]];
        unfold state_delete.RunE, state_delete.run_edit; rewrite Hall; simpl.
      * do 3 eexists. unfold state_delete.finish.
        repeat case_match; simpl; repeat (first [left; done | right]).
      * rewrite Hint, Hget. simpl. do 3 eexists. unfold state_delete.finish.
        repeat case_match; simpl; repeat (first [left; done | right]).
  - intros stk prompt chosen. delete_cases; intros Hin;
      repeat (apply elem_of_app in Hin as [Hin|Hin]); trace_membership;
      try done; (split; [done|]); (split; [done|]); eauto.
  - split.
    + delete_cases; intros Hin;
        repeat (apply elem_of_app in Hin as [Hin|Hin]); trace_membership;
        try done; (split; [done|]); split; try done; by apply negb_false_iff.
    + intros (Hall & -> & Hint). unfold state_delete.RunE, state_delete.run_edit.
      rewrite Hall, Hint. simpl. unfold state_delete.finish.
      repeat case_match; simpl; repeat (first [left; done | right]).
  - intros stk prompt. unfold state_delete.reported. delete_cases; intros Hin;
      repeat (apply elem_of_app in Hin as [Hin|Hin]); trace_membership;
      try done; (split; [done|]); (split; [done|]); done.
  - intros stk prompt chosen. unfold state_delete.reported. delete_cases; intros Hin;
      repeat (apply elem_of_app in Hin as [Hin|Hin]); trace_membership; try done;
      congruence.
Qed.

(** X16: on every path of the delete command, nil is returned exactly
    when the deletion is reported; the report is the last thing the
    command does, it is "Resources deleted" for [--all] and "Resource
    deleted" otherwise, and it is made exactly when the state edit that
    was started returned nil. *)
Theorem deletion_reported_iff_done env f args :
  ((state_delete.RunE env f args).2 = state_delete.returned None ↔
   ∃ line, state_delete.called_Println line ∈ (state_delete.RunE env f args).1) ∧
  (∀ line, state_delete.called_Println line ∈ (state_delete.RunE env f args).1 →
     line = (if state_delete.all f then "Resources deleted" else "Resource deleted") ∧
     last (state_delete.RunE env f args).1 = Some (state_delete.called_Println line)) ∧
  ((state_delete.RunE env f args).2 = state_delete.returned None →
   (∃ s p, state_delete.called_runTotalStateEdit s p ∈ (state_delete.RunE env f args).1 ∧
           state_delete.runTotalStateEdit env s p (state_delete.delete_all env f) =
             state_delete.returned None) ∨
   (∃ s p urn, state_delete.called_runStateEdit s p urn ∈ (state_delete.RunE env f args).1 ∧
               state_delete.runStateEdit env s p urn (state_delete.delete_one env f) =
                 state_delete.returned None)).
Proof.
  split; [|split].
  - split.
    + delete_cases; intros Hout; simplify_eq; eexists;
        repeat (first [left; done | right]).
    + delete_cases; intros (line & Hin);
        repeat (apply elem_of_app in Hin as [Hin|Hin]); trace_membership; done.
  - intros line. delete_cases; intros Hin;
      repeat (apply elem_of_app in Hin as [Hin|Hin]); trace_membership; done.
  - delete_cases; intros Hout; simplify_eq;
      first [left; do 2 eexists; split; [left|done]
            | right; do 3 eexists; split; [left|done]
            | right; do 3 eexists; split; [right; left|done]].
Qed.

(** X17: the delete command never hands the error types of package
    [edit] back to its caller as the result of a state edit: a
    [ResourceHasDependenciesError] or [ResourceProtectedError] returned
    by the edit comes back as a plain message, every other error of the
    edit comes back unchanged. *)
Theorem edit_errors_are_reported_as_messages env f args err :
  (state_delete.RunE env f args).2 = state_delete.returned (Some err) →
  ((∃ s p, state_delete.called_runTotalStateEdit s p ∈ (state_delete.RunE env f args).1) ∨
   (∃ s p urn, state_delete.called_runStateEdit s p urn ∈ (state_delete.RunE env f args).1)) →
  state_delete.is_edit_error err = false ∧
  ∃ cause,
    err = state_delete.report env cause ∧
    (state_delete.is_edit_error cause = false → err = cause) ∧
    (state_delete.runTotalStateEdit env (state_delete.stack f)
       (negb (state_delete.yes f || state_delete.SkipConfirmations env))
       (state_delete.delete_all env f) = state_delete.returned (Some cause) ∨
     ∃ urn, state_delete.runStateEdit env (state_delete.stack f)
              (negb (state_delete.yes f || state_delete.SkipConfirmations env)) urn
              (state_delete.delete_one env f) = state_delete.returned (Some cause)).
Proof.
  delete_cases; intros Hout [(stk & prompt & Hin)|(stk & prompt & chosen & Hin)];
    simplify_eq;
    repeat (apply elem_of_app in Hin as [Hin|Hin]); trace_membership;
    match goal with
    | |- state_delete.is_edit_error (state_delete.report _ ?cause) = _ ∧ _ =>
        split; [by destruct cause|];
        exists cause; split; [done|]; split; [by destruct cause|]; eauto
    end.
Qed.

Lemma edit_errors_are_reported_as_messages_witness :
  state_delete.RunE protected_environment delete_one_resource ["A"] =
    ([state_delete.called_runStateEdit EmptyString false "A"],
     state_delete.returned
       (Some (state_delete.fmt_Errorf
                ("%s can't be safely deleted because it is protected. " +:+
                 "Re-run this command with --force to force deletion") ["A"]))) ∧
  state_delete.is_edit_error
    (state_delete.fmt_Errorf
       ("%s can't be safely deleted because it is protected. " +:+
        "Re-run this command with --force to force deletion") ["A"]) = false.
Proof.
  split; [vm_compute; reflexivity|].
  apply (edit_errors_are_reported_as_messages protected_environment delete_one_resource
           ["A"]).
  - vm_compute. reflexivity.
  - right. exists EmptyString, false, "A". vm_compute. left.
Defined.

(** ** Repeated labels *)

Lemma count_replicate (P k : string) n :
  length (filter (λ x, x = P) (replicate n k)) = if decide (k = P) then n else 0.
Proof.
  induction n as [|n IH].
  - simpl. by case_decide.
  - rewrite replicate_S, filter_cons. destruct (decide (k = P)); simpl; by rewrite IH.
Qed.

Lemma sum_at_key {A} (f : A → nat) (P : string) (l : list (string * A)) :
  NoDup l.*1 →
  sum_list_with (λ entry, if decide (entry.1 = P) then f entry.2 else 0) l =
  from_option f 0 ((λ found : nat * (string * A), found.2.2) <$>
                     list_find (λ entry, entry.1 = P) l).
Proof.
  induction l as [|[k x] l IH]; intros Hnd; [done|].
  rewrite fmap_cons in Hnd. apply NoDup_cons in Hnd as [Hk Hnd]. simpl in *.
  destruct (decide (k = P)) as [->|Hne]; simpl.
  - assert (sum_list_with
              (λ entry : string * A, if decide (entry.1 = P) then f entry.2 else 0) l = 0)
      as ->; [|lia].
    etrans; [|apply (sum_list_with_zero l)].
    apply sum_list_with_ext_in. intros [k' x'] Hin. simpl.
    destruct (decide (k' = P)) as [->|]; [|done]. destruct Hk.
    apply list_elem_of_fmap. by exists (P, x').
  - rewrite (IH Hnd). by destruct (list_find (λ entry, entry.1 = P) l) as [[? [? ?]]|].
Qed.

Lemma find_at_key {A} (P : string) (m : gmap string A) (l : list (string * A)) :
  l ≡ₚ map_to_list m →
  (λ found : nat * (string * A), found.2.2) <$> list_find (λ entry, entry.1 = P) l =
  m !! P.
Proof.
  intros Hl.
  destruct (list_find (λ entry, entry.1 = P) l) as [[i [k x]]|] eqn:Hfind; simpl.
  - apply list_find_Some in Hfind as (Hi & Hk & _). simpl in Hk. subst k.
    symmetry. apply elem_of_map_to_list. rewrite <- Hl. by eapply list_elem_of_lookup_2.
  - destruct (m !! P) as [x|] eqn:Hm; [|done].
    apply elem_of_map_to_list in Hm. rewrite <- Hl in Hm.
    apply list_find_None in Hfind. rewrite Forall_forall in Hfind.
    by destruct (Hfind _ Hm).
Qed.

(** X18: a dependency edge carries a property name once for every
    time the dependency list of that property names the source of the
    edge, so a label is repeated when a property lists the same
    resource twice, and a property that does not depend on the source
    is no label of the edge. *)
Theorem label_multiplicity sched snapshot opts dg h u a v D b i e P :
  makeDependencyGraph sched snapshot opts = Some (dg, h) →
  vertices dg !! u = Some a → vertex_cells h !! a = Some v →
  vertices dg !! D = Some b →
  edge_cells h !! i = Some e → dependency_between a b e = true →
  length (filter (λ x, x = P) (Labels e)) =
  from_option (occurrences D) 0 (PropertyDependencies (vresource v) !! P).
Proof.
  intros [Hbuilt _]%makeDependencyGraph_built Hu Hv HD Hie HPe.
  pose proof (dependency_edges_between Hbuilt u a v D b Hu Hv HD) as Hf.
  pose proof (positions_filter (dependency_between a b) _ i e Hie HPe) as Hin.
  rewrite Hf in Hin. destruct (ignoreDependencyEdges opts); [by apply elem_of_nil in Hin|].
  apply list_elem_of_fmap in Hin as (? & -> & _). cbn [Labels].
  rewrite make_depBlame_formula, length_filter_join, sum_list_with_compose.
  etrans; [|exact (f_equal (from_option (occurrences D) 0)
                     (find_at_key P (PropertyDependencies (vresource v)) _
                        (range_properties_perm sched a _)))].
  rewrite <- sum_at_key.
  - apply sum_list_with_ext_in. intros [k deps] _. simpl. apply count_replicate.
  - rewrite range_properties_perm. apply NoDup_fst_map_to_list.
Qed.

Lemma label_multiplicity_witness :
  makeDependencyGraph listed_order snapAB4 default_options =
    Some (graphAB4.1, graphAB4.2) ∧
  edge_cells graphAB4.2 !! 0 =
    Some (dependencyEdge (Some 1) (Some 0) ["input"; "input"] "#246C60") ∧
  length (filter (λ x, x = "input") ["input"; "input"]) = 2.
Proof.
  assert (makeDependencyGraph listed_order snapAB4 default_options =
          Some (graphAB4.1, graphAB4.2)) as Hrun by (vm_compute; reflexivity).
  assert (edge_cells graphAB4.2 !! 0 =
          Some (dependencyEdge (Some 1) (Some 0) ["input"; "input"] "#246C60")) as Hie
    by (vm_compute; reflexivity).
  split; [exact Hrun|]. split; [exact Hie|].
  exact (label_multiplicity listed_order snapAB4 default_options graphAB4.1 graphAB4.2
           "B" 1 (mkVertex resB4 [0] [] false) "A" 0 0 _ "input"
           Hrun eq_refl eq_refl eq_refl Hie eq_refl).
Defined.
